(** * EvilQuest statistics scanner: a model of [main.go] and its properties

    The program walks a folder, picks the regular files whose size is the
    sample's [fileSize], parses each as Mach-O, hashes the [__text] and
    [__cstring] sections with SHA-256 and counts the digests in two maps.
    With [-n N], [N > 1], the files are handed over an unbuffered channel to
    [N] goroutines; a signal handler prints the maps and exits on Ctrl+C.

    The development has three layers:
    - the sequential code ([get_sha256], [analyseBinary], the two callbacks
      given to [filepath.Walk]) as functions;
    - [filepath.Walk] over a tree of directory entries;
    - the goroutines of the program (main, [analyseFolder], the workers and
      the signal handler) as an interleaving step function over a shared
      state, one step per shared-memory operation. *)

From Stdlib Require Import ZArith Ascii String Strings.Byte.
From stdpp Require Import gmap strings list fin_maps.

Open Scope Z_scope.

(** ** Digests *)

(** [hex.EncodeToString]: two characters of "0123456789abcdef" per byte. *)
Definition hextable : list ascii :=
  String.list_ascii_of_string "0123456789abcdef".

Definition hex_digit (n : N) : ascii :=
  nth (N.to_nat n) hextable "0"%char.

Fixpoint hex_EncodeToString (bs : list byte) : string :=
  match bs with
  | [] => EmptyString
  | b :: rest =>
      let v := Byte.to_N b in
      String (hex_digit (N.shiftr v 4))
        (String (hex_digit (N.land v 15)) (hex_EncodeToString rest))
  end.

(** The frequency tables are Go maps from the hex digest to an [int]. *)
Abbreviation table := (gmap string Z).

(** Go's [int] on the 64-bit targets the samples run on: two's complement
    wrap-around of a mathematical integer. *)
Definition int_wrap (z : Z) : Z :=
  (z + 2 ^ 63) mod 2 ^ 64 - 2 ^ 63.

(** [m[hash]++] on a Go map: a missing key reads as zero. *)
Definition incr (hash : string) (m : table) : table :=
  <[hash := int_wrap (default 0 (m !! hash) + 1)]> m.

(** ** What the file system answers *)

(** [r.Read(b)] on a section: the buffer as it is after the call when
    [err == nil], or an error. *)
Inductive ReadResult :=
  | ReadOk (b : list byte)
  | ReadErr.

(** [macho.File]: [Section(name)] is [nil] (here [None]) or a section, given
    by what reading it returns. *)
Record MachoFile := {
  sect_text : option ReadResult;
  sect_cstring : option ReadResult
}.

(** [os.Open] followed by [macho.NewFile]. *)
Inductive OpenResult :=
  | OpenErr (msg : string)
  | NotMacho
  | Macho (mf : MachoFile).

(** What the program prints. *)
Inductive output :=
  | OutOpenError (msg path : string)
  | OutCtrlC
  | OutWalkError
  | OutUsage
  | OutResults (code cstr : table).

(** The shared memory the analysis touches: the two maps and standard
    output.  [text_reads] and [cstring_reads] are ghost state: the buffers
    of the section reads that returned without error, newest first. *)
Record shared := {
  codeHashes : table;
  cstringHashes : table;
  stdout : list output;
  text_reads : list (list byte);
  cstring_reads : list (list byte)
}.

Definition shared0 : shared :=
  {| codeHashes := ∅; cstringHashes := ∅; stdout := [];
     text_reads := []; cstring_reads := [] |}.

Definition print (o : output) (sh : shared) : shared :=
  {| codeHashes := codeHashes sh; cstringHashes := cstringHashes sh;
     stdout := stdout sh ++ [o];
     text_reads := text_reads sh; cstring_reads := cstring_reads sh |}.

Definition add_code (b : list byte) (hash : string) (sh : shared) : shared :=
  {| codeHashes := incr hash (codeHashes sh);
     cstringHashes := cstringHashes sh;
     stdout := stdout sh;
     text_reads := b :: text_reads sh; cstring_reads := cstring_reads sh |}.

Definition add_cstring (b : list byte) (hash : string) (sh : shared) : shared :=
  {| codeHashes := codeHashes sh;
     cstringHashes := incr hash (cstringHashes sh);
     stdout := stdout sh;
     text_reads := text_reads sh; cstring_reads := b :: cstring_reads sh |}.

(** [showResults] *)
Definition showResults (sh : shared) : shared :=
  print (OutResults (codeHashes sh) (cstringHashes sh)) sh.

(** ** Directory trees and [filepath.Walk] *)

Record FileInfo := {
  IsRegular : bool;
  Size : Z
}.

(** A node of the tree under the input path, as [os.Lstat] and
    [readDirNames] report it. *)
#[warnings="-register-all"]
Inductive node :=
  | Leaf (path : string) (info : FileInfo)
  | Dir (path : string) (info : FileInfo) (names : option (list node))
  | Bad (path : string).

(** The arguments of one call of the walk function. *)
Record entry := {
  e_path : string;
  e_info : option FileInfo;
  e_err : bool
}.

Inductive error :=
  | io_EOF
  | SkipDir.

Section Walk.
Context {S : Type}.
Variable fn : entry -> S -> S * option error.

(** [walk] of path/filepath: the function is called on the entry, then on
    the children of a directory that could be read; the first error stops
    it, and [SkipDir] from a child that is not a directory ends the
    directory. *)
Fixpoint walk (n : node) (s : S) : S * option error :=
  match n with
  | Leaf p i => fn {| e_path := p; e_info := Some i; e_err := false |} s
  | Bad p => fn {| e_path := p; e_info := None; e_err := true |} s
  | Dir p i None => fn {| e_path := p; e_info := Some i; e_err := true |} s
  | Dir p i (Some names) =>
      match fn {| e_path := p; e_info := Some i; e_err := false |} s with
      | (s1, Some err1) => (s1, Some err1)
      | (s1, None) =>
          (fix loop (l : list node) (s : S) : S * option error :=
             match l with
             | [] => (s, None)
             | c :: l' =>
                 match walk c s with
                 | (s', None) => loop l' s'
                 | (s', Some SkipDir) =>
                     match c with
                     | Leaf _ _ => (s', Some SkipDir)
                     | _ => loop l' s'
                     end
                 | (s', Some err) => (s', Some err)
                 end
             end) names s1
      end
  end.

(** [filepath.Walk]: [SkipDir] at the top is not an error. *)
Definition Walk (root : node) (s : S) : S * option error :=
  match walk root s with
  | (s', Some SkipDir) => (s', None)
  | r => r
  end.
End Walk.

(** The calls [Walk] makes when the function never returns an error, in
    order. *)
Fixpoint entries (n : node) : list entry :=
  match n with
  | Leaf p i => [{| e_path := p; e_info := Some i; e_err := false |}]
  | Bad p => [{| e_path := p; e_info := None; e_err := true |}]
  | Dir p i None => [{| e_path := p; e_info := Some i; e_err := true |}]
  | Dir p i (Some names) =>
      {| e_path := p; e_info := Some i; e_err := false |}
        :: (fix loop (l : list node) : list entry :=
              match l with
              | [] => []
              | c :: l' => entries c ++ loop l'
              end) names
  end.

(** The walk over the list of calls: the first error stops it. *)
Fixpoint walk_list {S : Type} (fn : entry -> S -> S * option error)
    (l : list entry) (s : S) : S * option error :=
  match l with
  | [] => (s, None)
  | e :: l' =>
      match fn e s with
      | (s', None) => walk_list fn l' s'
      | r => r
      end
  end.

(** ** The sequential code *)

Definition fileSize : Z := 172792.

(** [info.Mode().IsRegular() && info.Size() == fileSize].  Both walk
    functions reach this test only when [err == nil], where [info] is not
    nil. *)
Definition candidate (e : entry) : bool :=
  match e_info e with
  | Some info => IsRegular info && (Size info =? fileSize)
  | None => false
  end.

(** The walk function of the counting pass, on [totalWork]. *)
Definition count_fn (e : entry) (totalWork : Z) : Z * option error :=
  if e_err e then (totalWork, None)
  else if candidate e then (int_wrap (totalWork + 1), None)
  else (totalWork, None).

(** Program points of [analyseBinary]: before [os.Open], before the
    [__text] section, before the [__cstring] section. *)
Inductive apc :=
  | AOpen (path : string)
  | AText (mf : MachoFile)
  | ACstring (mf : MachoFile).

(** ** A small corpus

    Two samples [a] and [b] with the same code, a file [c] of the sample's
    size that is not Mach-O, an entry [d] that cannot be read, a file [e]
    of another size and a sample [f].  The [__cstring] section of [b] and
    the [__text] section of [f] cannot be read.  In place of SHA-256 the
    examples use the bytes themselves. *)

Definition sample_Sum (buf : list byte) : list byte := buf.

Definition sample_info : FileInfo := {| IsRegular := true; Size := 172792 |}.
Definition other_info : FileInfo := {| IsRegular := true; Size := 12 |}.
Definition dir_info : FileInfo := {| IsRegular := false; Size := 160 |}.

Definition sample_root : node :=
  Dir "in" dir_info
    (Some [Leaf "in/a" sample_info; Leaf "in/b" sample_info;
           Leaf "in/c" sample_info; Bad "in/d"; Leaf "in/e" other_info;
           Leaf "in/f" sample_info]).

Definition sample_disk (path : string) : OpenResult :=
  if String.eqb path "in/a" then
    Macho {| sect_text := Some (ReadOk [x01; xfe]);
             sect_cstring := Some (ReadOk [x68; x69]) |}
  else if String.eqb path "in/b" then
    Macho {| sect_text := Some (ReadOk [x01; xfe]);
             sect_cstring := Some ReadErr |}
  else if String.eqb path "in/c" then NotMacho
  else if String.eqb path "in/f" then
    Macho {| sect_text := Some ReadErr;
             sect_cstring := Some (ReadOk [x68; x6f]) |}
  else OpenErr "no such file".

(** A tree with nothing to analyse. *)
Definition empty_root : node := Dir "in" dir_info (Some []).

(** A tree with the single sample [a]. *)
Definition single_root : node :=
  Dir "in" dir_info (Some [Leaf "in/a" sample_info]).

Section Program.
(** [sha256.New], [Write], [Sum(nil)] of crypto/sha256. *)
Variable sha256_Sum : list byte -> list byte.
(** What opening and parsing each path gives. *)
Variable disk : string -> OpenResult.

Definition get_sha256 (buf : list byte) : string :=
  let bs := sha256_Sum buf in
  let hash_string := hex_EncodeToString bs in
  hash_string.

Definition analyseBinary (path : string) (sh : shared) : shared :=
  match disk path with
  | OpenErr msg => print (OutOpenError msg path) sh
  | NotMacho => sh
  | Macho machoFile =>
      let after_text :=
        match sect_text machoFile with
        | None => Some sh
        | Some ReadErr => None
        | Some (ReadOk b) => Some (add_code b (get_sha256 b) sh)
        end in
      match after_text with
      | None => sh
      | Some sh1 =>
          match sect_cstring machoFile with
          | None => sh1
          | Some ReadErr => sh1
          | Some (ReadOk b) => add_cstring b (get_sha256 b) sh1
          end
      end
  end.

(** The same function cut at its three program points, for the
    interleaving with other goroutines: [None] is the return. *)
Definition analyse_step (a : apc) (sh : shared) : shared * option apc :=
  match a with
  | AOpen path =>
      match disk path with
      | OpenErr msg => (print (OutOpenError msg path) sh, None)
      | NotMacho => (sh, None)
      | Macho mf => (sh, Some (AText mf))
      end
  | AText mf =>
      match sect_text mf with
      | None => (sh, Some (ACstring mf))
      | Some ReadErr => (sh, None)
      | Some (ReadOk b) =>
          (add_code b (get_sha256 b) sh, Some (ACstring mf))
      end
  | ACstring mf =>
      match sect_cstring mf with
      | None => (sh, None)
      | Some ReadErr => (sh, None)
      | Some (ReadOk b) => (add_cstring b (get_sha256 b) sh, None)
      end
  end.

Fixpoint analyse_steps (n : nat) (a : apc) (sh : shared) : shared :=
  match n with
  | O => sh
  | Datatypes.S n' =>
      match analyse_step a sh with
      | (sh', None) => sh'
      | (sh', Some a') => analyse_steps n' a' sh'
      end
  end.

(** ** The goroutines *)

(** The tree under the input path. *)
Variable root : node.

(** [main]: before the test of the input path, then in
    [mainGroup.Wait()]. *)
Inductive MainPc :=
  | MStart
  | MWait.

(** [analyseFolder], by the line it is at. *)
Inductive WalkerPc :=
  | WNotStarted
  | WCount                                   (* line 154 *)
  | WStartPool                               (* line 169 *)
  | WWalk (rest : list entry)                (* line 186, next call *)
  | WSend (path : string) (rest : list entry) (* line 196 *)
  | WInline (a : apc) (rest : list entry)    (* line 198 *)
  | WReturned (eof : bool)                   (* line 208 *)
  | WStopped                                 (* returned at line 211 *)
  | WJoin                                    (* line 221 *)
  | WShow                                    (* line 223 *)
  | WDone                                    (* line 226 *)
  | WFinished.

(** A worker goroutine: in [<- tasks], in [analyseBinary], returned. *)
Inductive WorkerPc :=
  | KRecv
  | KRun (a : apc)
  | KDone.

(** The goroutine of [setupCloseHandler]. *)
Inductive HandlerPc :=
  | HIdle                                    (* line 87 *)
  | HFlag                                    (* line 89 *)
  | HJoin                                    (* line 90 *)
  | HShow                                    (* line 91 *)
  | HExit.                                   (* line 92 *)

Record state := {
  sh : shared;
  totalWork : Z;
  interrupted : bool;
  jobGroup : Z;
  mainGroup : Z;
  tasks_closed : bool;
  main_pc : MainPc;
  walker : WalkerPc;
  workers : list WorkerPc;
  handler : HandlerPc;
  exited : option Z
}.

Definition init : state :=
  {| sh := shared0; totalWork := 0; interrupted := false;
     jobGroup := 0; mainGroup := 0; tasks_closed := false;
     main_pc := MStart; walker := WNotStarted; workers := [];
     handler := HIdle; exited := None |}.

Definition set_sh (x : shared) (s : state) : state :=
  {| sh := x; totalWork := totalWork s; interrupted := interrupted s;
     jobGroup := jobGroup s; mainGroup := mainGroup s;
     tasks_closed := tasks_closed s; main_pc := main_pc s;
     walker := walker s; workers := workers s; handler := handler s;
     exited := exited s |}.

Definition set_walker (x : WalkerPc) (s : state) : state :=
  {| sh := sh s; totalWork := totalWork s; interrupted := interrupted s;
     jobGroup := jobGroup s; mainGroup := mainGroup s;
     tasks_closed := tasks_closed s; main_pc := main_pc s;
     walker := x; workers := workers s; handler := handler s;
     exited := exited s |}.

Definition set_workers (x : list WorkerPc) (s : state) : state :=
  {| sh := sh s; totalWork := totalWork s; interrupted := interrupted s;
     jobGroup := jobGroup s; mainGroup := mainGroup s;
     tasks_closed := tasks_closed s; main_pc := main_pc s;
     walker := walker s; workers := x; handler := handler s;
     exited := exited s |}.

Definition set_handler (x : HandlerPc) (s : state) : state :=
  {| sh := sh s; totalWork := totalWork s; interrupted := interrupted s;
     jobGroup := jobGroup s; mainGroup := mainGroup s;
     tasks_closed := tasks_closed s; main_pc := main_pc s;
     walker := walker s; workers := workers s; handler := x;
     exited := exited s |}.

Definition set_exited (code : Z) (s : state) : state :=
  {| sh := sh s; totalWork := totalWork s; interrupted := interrupted s;
     jobGroup := jobGroup s; mainGroup := mainGroup s;
     tasks_closed := tasks_closed s; main_pc := main_pc s;
     walker := walker s; workers := workers s; handler := handler s;
     exited := Some code |}.

Definition set_jobGroup (x : Z) (s : state) : state :=
  {| sh := sh s; totalWork := totalWork s; interrupted := interrupted s;
     jobGroup := x; mainGroup := mainGroup s;
     tasks_closed := tasks_closed s; main_pc := main_pc s;
     walker := walker s; workers := workers s; handler := handler s;
     exited := exited s |}.

(** A run-time panic ends the process with status 2. *)
Definition panic (s : state) : state := set_exited 2 s.

(** [close(tasks)]: closing a closed channel panics. *)
Definition close_tasks (s : state) : state :=
  if tasks_closed s then panic s
  else
    {| sh := sh s; totalWork := totalWork s; interrupted := interrupted s;
       jobGroup := jobGroup s; mainGroup := mainGroup s;
       tasks_closed := true; main_pc := main_pc s;
       walker := walker s; workers := workers s; handler := handler s;
       exited := exited s |}.

(** [jobGroup.Done()] and [mainGroup.Done()]: a negative counter
    panics. *)
Definition jobGroup_Done (s : state) : state :=
  if jobGroup s - 1 <? 0 then panic s
  else set_jobGroup (jobGroup s - 1) s.

Definition mainGroup_Done (s : state) : state :=
  if mainGroup s - 1 <? 0 then panic s
  else
    {| sh := sh s; totalWork := totalWork s; interrupted := interrupted s;
       jobGroup := jobGroup s; mainGroup := mainGroup s - 1;
       tasks_closed := tasks_closed s; main_pc := main_pc s;
       walker := walker s; workers := workers s; handler := handler s;
       exited := exited s |}.

(** [main], lines 255 to 266. *)
Definition main_step (input : string) (s : state) : option state :=
  match main_pc s with
  | MStart =>
      if decide (input = EmptyString) then
        Some (set_exited 1 (set_sh (print OutUsage (sh s)) s))
      else
        Some {| sh := sh s; totalWork := totalWork s;
                interrupted := interrupted s;
                jobGroup := jobGroup s; mainGroup := mainGroup s + 1;
                tasks_closed := tasks_closed s; main_pc := MWait;
                walker := WCount; workers := workers s;
                handler := handler s; exited := exited s |}
  | MWait =>
      if decide (mainGroup s = 0) then Some (set_exited 0 s) else None
  end.

(** The walk function of the dispatch pass (lines 187 to 202) on the
    entry [e]: where [analyseFolder] goes next. *)
Definition dispatch_fn (jobs : Z) (e : entry) (rest : list entry)
    (s : state) : WalkerPc :=
  if e_err e then WWalk rest
  else if interrupted s then WReturned true
  else if candidate e then
    if jobs >? 1 then WSend (e_path e) rest
    else WInline (AOpen (e_path e)) rest
  else WWalk rest.

(** [analyseFolder].  The counting pass shares nothing but [totalWork]
    and is one step; the progress bar is display only and left out. *)
Definition walker_step (jobs : Z) (s : state) : option state :=
  match walker s with
  | WNotStarted => None
  | WCount =>
      let (n, err) := Walk count_fn root (totalWork s) in
      let sh' :=
        match err with
        | Some _ => print OutWalkError (sh s)
        | None => sh s
        end in
      Some {| sh := sh'; totalWork := n; interrupted := interrupted s;
              jobGroup := jobGroup s; mainGroup := mainGroup s;
              tasks_closed := tasks_closed s; main_pc := main_pc s;
              walker := WStartPool; workers := workers s;
              handler := handler s; exited := exited s |}
  | WStartPool =>
      if jobs >? 1 then
        Some {| sh := sh s; totalWork := totalWork s;
                interrupted := interrupted s;
                jobGroup := jobGroup s + jobs; mainGroup := mainGroup s;
                tasks_closed := tasks_closed s; main_pc := main_pc s;
                walker := WWalk (entries root);
                workers := replicate (Z.to_nat jobs) KRecv;
                handler := handler s; exited := exited s |}
      else Some (set_walker (WWalk (entries root)) s)
  | WWalk [] => Some (set_walker (WReturned false) s)
  | WWalk (e :: rest) => Some (set_walker (dispatch_fn jobs e rest s) s)
  | WSend _ _ => if tasks_closed s then Some (panic s) else None
  | WInline a rest =>
      match analyse_step a (sh s) with
      | (sh', None) => Some (set_walker (WWalk rest) (set_sh sh' s))
      | (sh', Some a') => Some (set_walker (WInline a' rest) (set_sh sh' s))
      end
  | WReturned true => Some (set_walker WStopped (close_tasks s))
  | WReturned false =>
      if jobs >? 1 then Some (set_walker WJoin (close_tasks s))
      else Some (set_walker WShow s)
  | WStopped => None
  | WJoin =>
      if decide (jobGroup s = 0) then Some (set_walker WShow s) else None
  | WShow => Some (set_walker WDone (set_sh (showResults (sh s)) s))
  | WDone => Some (set_walker WFinished (mainGroup_Done s))
  | WFinished => None
  end.

(** The unbuffered channel: [tasks <- path] in [analyseFolder] meets
    [<- tasks] of worker [i]. *)
Definition send_step (i : nat) (s : state) : option state :=
  match walker s, workers s !! i with
  | WSend path rest, Some KRecv =>
      if tasks_closed s then None
      else Some (set_walker (WWalk rest)
                   (set_workers (<[i := KRun (AOpen path)]> (workers s)) s))
  | _, _ => None
  end.

(** Worker [i], lines 173 to 181. *)
Definition worker_step (i : nat) (s : state) : option state :=
  match workers s !! i with
  | Some KRecv =>
      if tasks_closed s then
        Some (jobGroup_Done (set_workers (<[i := KDone]> (workers s)) s))
      else None
  | Some (KRun a) =>
      match analyse_step a (sh s) with
      | (sh', None) =>
          Some (set_workers (<[i := KRecv]> (workers s)) (set_sh sh' s))
      | (sh', Some a') =>
          Some (set_workers (<[i := KRun a']> (workers s)) (set_sh sh' s))
      end
  | Some KDone => None
  | None => None
  end.

(** The signal handler, lines 87 to 92.  The signal arrives when the
    first step is taken. *)
Definition handler_step (s : state) : option state :=
  match handler s with
  | HIdle => Some (set_handler HFlag (set_sh (print OutCtrlC (sh s)) s))
  | HFlag =>
      Some {| sh := sh s; totalWork := totalWork s; interrupted := true;
              jobGroup := jobGroup s; mainGroup := mainGroup s;
              tasks_closed := tasks_closed s; main_pc := main_pc s;
              walker := walker s; workers := workers s;
              handler := HJoin; exited := exited s |}
  | HJoin =>
      if decide (jobGroup s = 0) then Some (set_handler HShow s) else None
  | HShow => Some (set_handler HExit (set_sh (showResults (sh s)) s))
  | HExit => Some (set_exited 0 s)
  end.

(** Which goroutine moves. *)
Inductive label :=
  | LMain
  | LWalker
  | LSend (i : nat)
  | LWorker (i : nat)
  | LHandler.

(** One step of the process; nothing moves once it has exited. *)
Definition step (input : string) (jobs : Z) (l : label) (s : state)
    : option state :=
  match exited s with
  | Some _ => None
  | None =>
      match l with
      | LMain => main_step input s
      | LWalker => walker_step jobs s
      | LSend i => send_step i s
      | LWorker i => worker_step i s
      | LHandler => handler_step s
      end
  end.

(** A schedule, run from [s]. *)
Fixpoint run (input : string) (jobs : Z) (ls : list label) (s : state)
    : option state :=
  match ls with
  | [] => Some s
  | l :: ls' =>
      match step input jobs l s with
      | Some s' => run input jobs ls' s'
      | None => None
      end
  end.

Definition reachable (input : string) (jobs : Z) (s : state) : Prop :=
  exists ls, run input jobs ls init = Some s.


(** ** What a run should count *)

(** The two region categories and their maps. *)
Inductive category :=
  | CODE
  | STRINGS.

Definition hashes (c : category) (x : shared) : table :=
  match c with
  | CODE => codeHashes x
  | STRINGS => cstringHashes x
  end.

Definition reads (c : category) (x : shared) : list (list byte) :=
  match c with
  | CODE => text_reads x
  | STRINGS => cstring_reads x
  end.

(** The section buffers [analyseBinary] reads without error in a file: the
    [__cstring] section is not looked at when reading [__text] failed. *)
Definition macho_region (c : category) (mf : MachoFile) : list (list byte) :=
  match c with
  | CODE =>
      match sect_text mf with
      | Some (ReadOk b) => [b]
      | _ => []
      end
  | STRINGS =>
      match sect_text mf with
      | Some ReadErr => []
      | _ =>
          match sect_cstring mf with
          | Some (ReadOk b) => [b]
          | _ => []
          end
      end
  end.

Definition region_of (c : category) (o : OpenResult) : list (list byte) :=
  match o with
  | Macho mf => macho_region c mf
  | _ => []
  end.

(** The reads still ahead of a call of [analyseBinary] at a given point. *)
Definition apc_region (c : category) (a : apc) : list (list byte) :=
  match a with
  | AOpen path => region_of c (disk path)
  | AText mf => macho_region c mf
  | ACstring mf =>
      match c with
      | CODE => []
      | STRINGS =>
          match sect_cstring mf with
          | Some (ReadOk b) => [b]
          | _ => []
          end
      end
  end.

(** The entries the walk functions take for samples. *)
Definition to_analyse (e : entry) : bool :=
  negb (e_err e) && candidate e.

Definition candidates (l : list entry) : list string :=
  map e_path (List.filter to_analyse l).

Definition regions (c : category) (paths : list string) : list (list byte) :=
  concat (map (fun p => region_of c (disk p)) paths).

(** The reads still ahead of [analyseFolder] and of a worker. *)
Definition walker_region (c : category) (w : WalkerPc) : list (list byte) :=
  match w with
  | WNotStarted | WCount | WStartPool => regions c (candidates (entries root))
  | WWalk rest => regions c (candidates rest)
  | WSend path rest => region_of c (disk path) ++ regions c (candidates rest)
  | WInline a rest => apc_region c a ++ regions c (candidates rest)
  | _ => []
  end.

Definition worker_region (c : category) (w : WorkerPc) : list (list byte) :=
  match w with
  | KRun a => apc_region c a
  | _ => []
  end.

Definition workers_region (c : category) (ws : list WorkerPc)
    : list (list byte) :=
  concat (map (worker_region c) ws).

(** The map that counts a list of digests. *)
Definition table_of (l : list string) : table := foldr incr ∅ l.

Definition occurrences (d : string) (l : list string) : nat :=
  length (List.filter (String.eqb d) l).

(** The maps of a run that analyses every sample of the tree. *)
Definition expected (c : category) : table :=
  table_of (map get_sha256 (regions c (candidates (entries root)))).

(** [analyseFolder] is at or past its [showResults()]. *)
Definition completed (s : state) : bool :=
  match walker s with
  | WShow | WDone | WFinished => true
  | _ => false
  end.

(** The walk of the dispatch pass was cut by the flag. *)
Definition stopped (s : state) : bool :=
  match walker s with
  | WReturned true | WStopped => true
  | _ => false
  end.

(** The number of frequency reports printed. *)
Definition reports (out : list output) : nat :=
  length (List.filter (fun o => match o with OutResults _ _ => true | _ => false end) out).

Definition live (w : WorkerPc) : bool :=
  match w with
  | KDone => false
  | _ => true
  end.

Definition running (w : WorkerPc) : bool :=
  match w with
  | KRun _ => true
  | _ => false
  end.

(** ** Invariants of the process *)

(** The maps count the digests of the reads made so far. *)
Definition tables_ok (x : shared) : Prop :=
  forall c, hashes c x = table_of (map get_sha256 (reads c x)).

(** Every region of every sample is read, being read or still to be read,
    once. *)
Definition accounted (c : category) (s : state) : Prop :=
  reads c (sh s) ++ walker_region c (walker s) ++ workers_region c (workers s)
  ≡ₚ regions c (candidates (entries root)).

(** Where [analyseFolder] is when [tasks] is closed. *)
Definition closed_at (jobs : Z) (w : WalkerPc) : bool :=
  match w with
  | WStopped | WJoin => true
  | WShow | WDone | WFinished => jobs >? 1
  | _ => false
  end.

Definition reported_by_walker (w : WalkerPc) : nat :=
  match w with
  | WDone | WFinished => 1
  | _ => 0
  end.

Definition reported_by_handler (h : HandlerPc) : nat :=
  match h with
  | HExit => 1
  | _ => 0
  end.

(** What holds of the program points, the counters, the channel and the
    flag in every state a run can reach: [jobGroup] counts the workers that
    have not returned, [tasks] is closed exactly where [analyseFolder] has
    closed it, the flag is set once the handler has set it, the only exit
    statuses are 0 and 1, and each [showResults()] passed is one report. *)
Record control (input : string) (jobs : Z) (s : state) : Prop := {
  ctl_jobGroup :
    jobGroup s = Z.of_nat (length (List.filter live (workers s)));
  ctl_pool :
    match walker s with
    | WNotStarted | WCount | WStartPool => workers s = []
    | _ =>
        if jobs >? 1 then length (workers s) = Z.to_nat jobs
        else workers s = []
    end;
  ctl_open :
    tasks_closed s = false -> Forall (fun w => live w = true) (workers s);
  ctl_closed : tasks_closed s = closed_at jobs (walker s);
  ctl_mode :
    match walker s with
    | WSend _ _ | WJoin => (jobs >? 1) = true
    | WInline _ _ => (jobs >? 1) = false
    | _ => True
    end;
  ctl_main :
    match main_pc s with
    | MStart => walker s = WNotStarted /\ mainGroup s = 0
    | MWait =>
        walker s <> WNotStarted /\ input <> EmptyString /\
        mainGroup s = match walker s with WFinished => 0 | _ => 1 end
    end;
  ctl_exit :
    match exited s with
    | None => True
    | Some code =>
        (code = 1 /\ input = EmptyString) \/
        (code = 0 /\ (handler s = HExit \/ walker s = WFinished))
    end;
  ctl_flag :
    interrupted s =
    match handler s with
    | HIdle | HFlag => false
    | _ => true
    end;
  ctl_drained :
    completed s = true -> Forall (fun w => w = KDone) (workers s);
  ctl_handler :
    match handler s with
    | HShow | HExit =>
        Forall (fun w => running w = false) (workers s) /\
        match walker s with WSend _ _ => False | _ => True end
    | _ => True
    end;
  ctl_reports :
    reports (stdout (sh s)) =
    (reported_by_walker (walker s) + reported_by_handler (handler s))%nat
}.

(** The reads still ahead after a step of [analyseBinary]. *)
Definition next_region (c : category) (oa : option apc) : list (list byte) :=
  match oa with
  | Some a => apc_region c a
  | None => []
  end.

(** ** Schedules on the small corpus *)


(** [-n 2] on the small corpus, the two workers taking turns, up to the
    report of [analyseFolder]. *)
Definition pool_schedule : list label :=
  [LMain; LWalker; LWalker; LWalker; LWalker; LSend 1; LWalker; LWorker 1;
   LSend 0; LWorker 0; LWalker; LWorker 1; LWorker 0; LWorker 1; LSend 1;
   LWorker 0; LWorker 1; LWalker; LWalker; LWalker; LSend 0; LWorker 0;
   LWorker 0; LWalker; LWalker; LWorker 0; LWorker 1; LWalker].


(** [-n 2] on the empty tree: the signal arrives when the walk is over and
    [analyseFolder] is about to print. *)
Definition late_interrupt : list label :=
  [LMain; LWalker; LWalker; LWalker; LWalker; LWalker; LWorker 0; LWorker 1;
   LWalker; LHandler; LHandler; LHandler; LWalker; LHandler; LHandler].

(** [-n 1] on the single sample: the signal arrives while [analyseFolder]
    is inside [analyseBinary], between the two sections. *)
Definition inline_interrupt : list label :=
  [LMain; LWalker; LWalker; LWalker; LWalker; LWalker; LWalker;
   LHandler; LHandler; LHandler; LHandler; LHandler].


(** [-n 2] on the single sample: the signal arrives when the walk function
    has tested the flag and is about to send the path. *)
Definition racing_send : list label :=
  [LMain; LWalker; LWalker; LWalker; LWalker; LHandler; LHandler].

(** [-n 2] on the small corpus: the signal arrives while worker 1 analyses
    [a], before the walk function is called on [b]. *)
Definition interrupt_at_b : list label :=
  [LMain; LWalker; LWalker; LWalker; LWalker; LSend 1; LWorker 1;
   LHandler; LHandler].


(** [-n 2] on the small corpus: the signal arrives while worker 1 analyses
    [a]; the walk function sees the flag at [b], [analyseFolder] closes
    [tasks], the workers return and the handler gets past its wait. *)
Definition interrupted_pool_schedule : list label :=
  [LMain; LWalker; LWalker; LWalker; LWalker; LSend 1; LWorker 1;
   LHandler; LHandler; LWalker; LWalker; LWorker 1; LWorker 1; LWorker 0;
   LWorker 1; LHandler].


(** ** Reading a digest back *)

(** The value of a character of [hextable]: its place in the table. *)
Definition hex_value (c : ascii) : N :=
  (fix find (l : list ascii) (n : N) : N :=
     match l with
     | [] => n
     | x :: l' => if Ascii.eqb x c then n else find l' (N.succ n)
     end) hextable 0%N.


(** ** One goroutine alone *)

(** [analyseBinary] called on each path in turn, as the dispatch pass does
    with [-n 1] when no signal arrives. *)
Definition analyseAll (paths : list string) (x : shared) : shared :=
  fold_left (fun x path => analyseBinary path x) paths x.

(** The line [analyseBinary] prints when a file cannot be opened. *)
Definition is_open_error (o : output) : bool :=
  match o with
  | OutOpenError _ _ => true
  | _ => false
  end.

(** ** How far the dispatch pass has come *)

(** The reads still ahead of the call of [analyseBinary] that
    [analyseFolder] itself is in. *)
Definition walker_inflight (c : category) (w : WalkerPc) : list (list byte) :=
  match w with
  | WInline a _ => apc_region c a
  | _ => []
  end.

(** [pre] are the entries the dispatch pass is done with (a sample among
    them has been handed to a worker, or to [analyseBinary] directly),
    [post] the ones it has not taken: what was read, together with what the
    calls of [analyseBinary] under way will still read, are the regions of
    the samples of [pre]. *)
Definition progress (s : state) (pre post : list entry) : Prop :=
  entries root = pre ++ post /\
  (forall c,
     reads c (sh s) ++ walker_inflight c (walker s)
       ++ workers_region c (workers s)
     ≡ₚ regions c (candidates pre)) /\
  match walker s with
  | WNotStarted | WCount | WStartPool => pre = []
  | WWalk rest => post = rest
  | WSend path rest =>
      exists e, post = e :: rest /\ to_analyse e = true /\ path = e_path e
  | WInline _ rest => post = rest
  | WReturned false | WJoin | WShow | WDone | WFinished => post = []
  | WReturned true | WStopped => True
  end.

(** ** What is opened *)

(** The paths that [analyseFolder] is sending or that a call of
    [analyseBinary] is about to open, and the paths of the lines already
    printed for files that could not be opened, satisfy [P]. *)
Definition opening (P : string -> Prop) (s : state) : Prop :=
  match walker s with
  | WSend path _ => P path
  | WInline (AOpen path) _ => P path
  | _ => True
  end /\
  Forall (fun w => match w with KRun (AOpen path) => P path | _ => True end)
    (workers s) /\
  (forall msg path,
     In (OutOpenError msg path) (stdout (sh s)) ->
     P path /\ disk path = OpenErr msg).

(** ** A measure of what is left to do *)

(** The statements a call of [analyseBinary] has still to go through. *)
Definition apc_left (a : apc) : nat :=
  match a with
  | AOpen _ => 3
  | AText _ => 2
  | ACstring _ => 1
  end.

Definition worker_left (w : WorkerPc) : nat :=
  match w with
  | KRecv => 1
  | KRun a => 1 + apc_left a
  | KDone => 0
  end.

Definition workers_left (ws : list WorkerPc) : nat :=
  list_sum (map worker_left ws).

(** The workers that [analyseFolder] starts. *)
Definition pool_size (jobs : Z) : nat :=
  if jobs >? 1 then Z.to_nat jobs else 0%nat.

Definition walker_left (jobs : Z) (w : WalkerPc) : nat :=
  match w with
  | WNotStarted => 6 * length (entries root) + pool_size jobs + 8
  | WCount => 6 * length (entries root) + pool_size jobs + 7
  | WStartPool => 6 * length (entries root) + pool_size jobs + 6
  | WWalk rest => 6 * length rest + 5
  | WSend _ rest => 6 * length rest + 5 + 5
  | WInline a rest => 6 * length rest + 5 + 1 + apc_left a
  | WReturned false => 4
  | WReturned true => 1
  | WStopped => 0
  | WJoin => 3
  | WShow => 2
  | WDone => 1
  | WFinished => 0
  end.

Definition handler_left (h : HandlerPc) : nat :=
  match h with
  | HIdle => 4
  | HFlag => 3
  | HJoin => 2
  | HShow => 1
  | HExit => 0
  end.

Definition main_left (m : MainPc) : nat :=
  match m with
  | MStart => 1
  | MWait => 0
  end.

(** A bound on the steps a process in state [s] can still take. *)
Definition steps_left (jobs : Z) (s : state) : nat :=
  match exited s with
  | Some _ => 0
  | None =>
      1 + main_left (main_pc s) + walker_left jobs (walker s)
        + workers_left (workers s) + handler_left (handler s)
  end.

(** * Properties *)

(** ** Counting in a map *)

Lemma int_wrap_small z : - 2 ^ 63 <= z < 2 ^ 63 -> int_wrap z = z.
Proof.
  intros Hz. unfold int_wrap.
  rewrite Z.mod_small; lia.
Qed.

Lemma int_wrap_succ z : int_wrap (int_wrap z + 1) = int_wrap (z + 1).
Proof.
  unfold int_wrap.
  replace ((z + 2 ^ 63) mod 2 ^ 64 - 2 ^ 63 + 1 + 2 ^ 63)
    with ((z + 2 ^ 63) mod 2 ^ 64 + 1) by lia.
  replace (z + 1 + 2 ^ 63) with (z + 2 ^ 63 + 1) by lia.
  now rewrite Zplus_mod_idemp_l.
Qed.

Lemma incr_lookup_eq d m :
  incr d m !! d = Some (int_wrap (default 0 (m !! d) + 1)).
Proof. unfold incr. apply lookup_insert_eq. Qed.

Lemma incr_lookup_ne d d' m : d <> d' -> incr d m !! d' = m !! d'.
Proof. intros Hne. unfold incr. now apply lookup_insert_ne. Qed.

(** Increments of the maps commute: the order in which the goroutines
    take the mutex does not show in the maps. *)
Lemma incr_comm a b (m : table) : incr a (incr b m) = incr b (incr a m).
Proof.
  destruct (decide (a = b)) as [->|Hne]; [reflexivity|].
  apply map_eq. intros d.
  destruct (decide (d = a)) as [->|Ha].
  - rewrite incr_lookup_eq, (incr_lookup_ne b a) by congruence.
    rewrite (incr_lookup_ne b a), incr_lookup_eq by congruence.
    reflexivity.
  - rewrite (incr_lookup_ne a d) by congruence.
    destruct (decide (d = b)) as [->|Hb].
    + rewrite !incr_lookup_eq, (incr_lookup_ne a b) by congruence.
      reflexivity.
    + rewrite !incr_lookup_ne by congruence. reflexivity.
Qed.

Lemma table_of_perm l1 l2 : l1 ≡ₚ l2 -> table_of l1 = table_of l2.
Proof.
  intros Hp. unfold table_of.
  induction Hp as [|x l l' _ IH|x y l|l l' l'' _ IH1 _ IH2]; simpl.
  - reflexivity.
  - now rewrite IH.
  - apply incr_comm.
  - congruence.
Qed.

Lemma occurrences_cons d x l :
  occurrences d (x :: l) =
  if String.eqb d x then Datatypes.S (occurrences d l) else occurrences d l.
Proof. unfold occurrences. simpl. now destruct (String.eqb d x). Qed.

(** A digest is in the map when it was counted, with the number of times
    it was counted, as an [int]. *)
Lemma table_of_lookup l d :
  table_of l !! d =
  match occurrences d l with
  | O => None
  | n => Some (int_wrap (Z.of_nat n))
  end.
Proof.
  induction l as [|x l IH].
  - apply lookup_empty.
  - rewrite occurrences_cons. change (table_of (x :: l)) with (incr x (table_of l)).
    destruct (String.eqb_spec d x) as [->|Hne].
    + rewrite incr_lookup_eq, IH.
      destruct (occurrences x l) as [|n]; [reflexivity|].
      simpl default. rewrite int_wrap_succ. f_equal. f_equal. lia.
    + rewrite incr_lookup_ne by congruence. exact IH.
Qed.

(** ** The walk *)

Lemma node_induction (P : node -> Prop) :
  (forall p i, P (Leaf p i)) ->
  (forall p, P (Bad p)) ->
  (forall p i, P (Dir p i None)) ->
  (forall p i names, Forall P names -> P (Dir p i (Some names))) ->
  forall n, P n.
Proof.
  intros HLeaf HBad HNone HSome.
  fix IH 1.
  intros [p i|p i [names|]|p].
  - apply HLeaf.
  - apply HSome.
    induction names as [|c names IHnames]; constructor.
    + apply IH.
    + exact IHnames.
  - apply HNone.
  - apply HBad.
Qed.

Lemma walk_list_app {A : Type} (fn : entry -> A -> A * option error) l1 l2 s :
  walk_list fn (l1 ++ l2) s =
  match walk_list fn l1 s with
  | (s', None) => walk_list fn l2 s'
  | r => r
  end.
Proof.
  revert s. induction l1 as [|e l1 IH]; intros s; simpl.
  - reflexivity.
  - destruct (fn e s) as [s' [err|]]; [reflexivity|]. apply IH.
Qed.

Section WalkNoSkip.
Context {A : Type} (fn : entry -> A -> A * option error).
Hypothesis fn_no_skip : forall e s, snd (fn e s) <> Some SkipDir.

Lemma walk_list_no_skip l s : snd (walk_list fn l s) <> Some SkipDir.
Proof.
  revert s. induction l as [|e l IH]; intros s; simpl.
  - discriminate.
  - pose proof (fn_no_skip e s) as Hfn.
    destruct (fn e s) as [s' [err|]]; [exact Hfn|]. apply IH.
Qed.

(** A walk function that only ever returns [nil] or [io.EOF] is called on
    the entries of the tree in order, up to the first [io.EOF]. *)
Lemma walk_entries n s : walk fn n s = walk_list fn (entries n) s.
Proof.
  revert s. induction n as [p i|p|p i|p i names IH] using node_induction;
    intros s; simpl.
  - now destruct (fn _ s) as [s' [err|]].
  - now destruct (fn _ s) as [s' [err|]].
  - now destruct (fn _ s) as [s' [err|]].
  - destruct (fn _ s) as [s1 [err|]]; [reflexivity|].
    clear s. revert s1.
    induction IH as [|c names Hc _ IHnames]; intros s1.
    + reflexivity.
    + rewrite walk_list_app, Hc.
      pose proof (walk_list_no_skip (entries c) s1) as Hns.
      destruct (walk_list fn (entries c) s1) as [s' [[|]|]]; simpl in Hns.
      * reflexivity.
      * congruence.
      * apply IHnames.
Qed.

Lemma Walk_entries root' s : Walk fn root' s = walk_list fn (entries root') s.
Proof.
  unfold Walk. rewrite walk_entries.
  pose proof (walk_list_no_skip (entries root') s) as Hns.
  destruct (walk_list fn (entries root') s) as [s' [[|]|]]; simpl in Hns;
    congruence.
Qed.
End WalkNoSkip.

Lemma count_fn_nil e n : snd (count_fn e n) = None.
Proof.
  unfold count_fn.
  destruct (e_err e); [reflexivity|]. now destruct (candidate e).
Qed.

Lemma count_fn_no_skip e n : snd (count_fn e n) <> Some SkipDir.
Proof. rewrite count_fn_nil. discriminate. Qed.

Lemma walk_list_count_nil l n : snd (walk_list count_fn l n) = None.
Proof.
  revert n. induction l as [|e l IH]; intros n; simpl.
  - reflexivity.
  - pose proof (count_fn_nil e n) as He.
    destruct (count_fn e n) as [n' [err|]]; [discriminate He|]. apply IH.
Qed.

Lemma Walk_count_nil root' n : snd (Walk count_fn root' n) = None.
Proof.
  rewrite (Walk_entries count_fn count_fn_no_skip). apply walk_list_count_nil.
Qed.

(** ** The control invariant *)

Lemma reports_app out o :
  reports (out ++ [o]) =
  (reports out + match o with OutResults _ _ => 1 | _ => 0 end)%nat.
Proof.
  unfold reports. rewrite List.filter_app, length_app. simpl.
  now destruct o.
Qed.

Lemma live_count_insert (ws : list WorkerPc) i w w' :
  ws !! i = Some w ->
  (length (List.filter live (<[i:=w']> ws)) + (if live w then 1 else 0)
   = length (List.filter live ws) + (if live w' then 1 else 0))%nat.
Proof.
  revert i. induction ws as [|x ws IH]; intros [|i] Hi; simpl in *;
    try discriminate.
  - injection Hi as ->. destruct (live w), (live w'); simpl; lia.
  - specialize (IH i Hi). destruct (live x); simpl; lia.
Qed.

Lemma live_count_all (ws : list WorkerPc) :
  Forall (fun w => live w = true) ws -> List.filter live ws = ws.
Proof.
  induction 1 as [|w ws Hw _ IH]; simpl; [reflexivity|].
  rewrite Hw. now f_equal.
Qed.

Lemma live_count_none (ws : list WorkerPc) :
  length (List.filter live ws) = 0%nat -> Forall (fun w => w = KDone) ws.
Proof.
  induction ws as [|w ws IH]; simpl; intros H; constructor.
  - destruct w; simpl in H; try discriminate. reflexivity.
  - apply IH. destruct (live w); simpl in H; [discriminate|exact H].
Qed.

Lemma done_not_running (ws : list WorkerPc) :
  Forall (fun w => w = KDone) ws -> Forall (fun w => running w = false) ws.
Proof.
  intros H. eapply Forall_impl; [exact H|]. intros w ->. reflexivity.
Qed.

Lemma analyse_step_reports a x x' oa :
  analyse_step a x = (x', oa) -> reports (stdout x') = reports (stdout x).
Proof.
  destruct a as [path|mf|mf]; simpl.
  - destruct (disk path); intros [= <- <-]; simpl; [|reflexivity..].
    rewrite reports_app. simpl. lia.
  - destruct (sect_text mf) as [[b|]|]; intros [= <- <-]; reflexivity.
  - destruct (sect_cstring mf) as [[b|]|]; intros [= <- <-]; reflexivity.
Qed.

Lemma control_init input jobs : control input jobs init.
Proof.
  constructor; simpl; auto.
Qed.

Ltac case_pc :=
  match goal with
  | |- context [match ?x with _ => _ end] =>
      let T := type of x in
      match T with
      | MainPc => idtac
      | HandlerPc => idtac
      | WalkerPc => idtac
      | bool => idtac
      end;
      destruct x eqn:?
  | H : context [match ?x with _ => _ end] |- _ =>
      let T := type of x in
      match T with
      | MainPc => idtac
      | HandlerPc => idtac
      | WalkerPc => idtac
      | bool => idtac
      end;
      destruct x eqn:?
  end.

Ltac nil_lookup :=
  match goal with
  | H : workers ?s = [], Hi : workers ?s !! _ = Some _ |- _ =>
      rewrite H in Hi; discriminate Hi
  end.

Ltac forall_lookup :=
  match goal with
  | H : Forall ?P (workers ?s), Hi : workers ?s !! ?i = Some ?w |- _ =>
      let Hw := fresh in
      pose proof (Forall_lookup_1 P _ i w H Hi) as Hw; simpl in Hw;
      first [discriminate Hw | congruence]
  end.

Ltac nil_workers :=
  match goal with
  | H : workers ?s = [] |- context [workers ?s] =>
      rewrite H; simpl; auto using Forall_nil_2
  end.

Ltac ctl_finish :=
  try nil_lookup;
  intuition (auto using Forall_insert, Forall_nil_2;
             try discriminate; try congruence; try lia; try forall_lookup;
             try nil_workers).

Ltac ctl_crush :=
  simpl in *;
  unfold completed, showResults, print, closed_at, reported_by_walker,
    reported_by_handler in *;
  simpl in *;
  rewrite ?reports_app, ?length_insert in *;
  repeat match goal with
  | H : ?x = _ |- context [match ?x with _ => _ end] => rewrite H
  | H : ?x = _, H' : context [match ?x with _ => _ end] |- _ => rewrite H in H'
  end;
  simpl in *;
  try solve [ctl_finish];
  try solve [repeat case_pc; simpl in *; ctl_finish].

Lemma control_main_step input jobs s s' :
  control input jobs s -> exited s = None ->
  main_step input s = Some s' -> control input jobs s'.
Proof.
  intros [HjG Hpool Hopen Hclosed Hmode Hmain Hexit Hflag Hdr Hh Hrep] Hex Hst.
  unfold main_step in Hst.
  destruct (main_pc s) eqn:Hpc.
  - destruct Hmain as [Hw Hmg].
    destruct (decide (input = EmptyString)) as [Hin|Hin];
      injection Hst as <-; constructor; ctl_crush.
  - destruct (decide (mainGroup s = 0)) as [Hz|Hz]; [|discriminate].
    injection Hst as <-. constructor; ctl_crush.
Qed.

Lemma control_handler_step input jobs s s' :
  control input jobs s -> exited s = None ->
  handler_step s = Some s' -> control input jobs s'.
Proof.
  intros [HjG Hpool Hopen Hclosed Hmode Hmain Hexit Hflag Hdr Hh Hrep] Hex Hst.
  unfold handler_step in Hst.
  destruct (handler s) eqn:Hpc.
  5: injection Hst as <-; constructor; ctl_crush.
  4: injection Hst as <-; constructor; ctl_crush.
  3: destruct (decide (jobGroup s = 0)) as [Hz|Hz]; [|discriminate];
     injection Hst as <-; constructor; ctl_crush.
  2: injection Hst as <-; constructor; ctl_crush.
  1: injection Hst as <-; constructor; ctl_crush.
  split.
  - apply done_not_running, live_count_none. lia.
  - destruct (walker s) eqn:Hw; auto.
    rewrite Hmode in Hpool.
    rewrite (live_count_all (workers s)) in HjG by auto.
    apply Z.gtb_lt in Hmode. lia.
Qed.

Lemma control_send_step input jobs i s s' :
  control input jobs s -> exited s = None ->
  send_step i s = Some s' -> control input jobs s'.
Proof.
  intros [HjG Hpool Hopen Hclosed Hmode Hmain Hexit Hflag Hdr Hh Hrep] Hex Hst.
  unfold send_step in Hst.
  destruct (walker s) eqn:Hw; try discriminate.
  destruct (workers s !! i) as [[| |]|] eqn:Hi; try discriminate.
  destruct (tasks_closed s) eqn:Hc; [discriminate|].
  injection Hst as <-.
  pose proof (live_count_insert (workers s) i KRecv (KRun (AOpen path)) Hi) as Hn.
  constructor; ctl_crush.
Qed.

Lemma control_worker_step input jobs i s s' :
  control input jobs s -> exited s = None ->
  worker_step i s = Some s' -> control input jobs s'.
Proof.
  intros [HjG Hpool Hopen Hclosed Hmode Hmain Hexit Hflag Hdr Hh Hrep] Hex Hst.
  unfold worker_step in Hst.
  destruct (workers s !! i) as [[|a|]|] eqn:Hi; try discriminate.
  - destruct (tasks_closed s) eqn:Hc; [|discriminate].
    injection Hst as <-.
    pose proof (live_count_insert (workers s) i KRecv KDone Hi) as Hn.
    unfold jobGroup_Done; simpl.
    destruct (jobGroup s - 1 <? 0) eqn:Hneg.
    + apply Z.ltb_lt in Hneg. simpl in Hn. lia.
    + constructor; ctl_crush.
  - destruct (analyse_step a (sh s)) as [sh' [a'|]] eqn:Ha;
      injection Hst as <-;
      pose proof (analyse_step_reports _ _ _ _ Ha) as Hr.
    + pose proof (live_count_insert (workers s) i (KRun a) (KRun a') Hi) as Hn.
      constructor; ctl_crush.
    + pose proof (live_count_insert (workers s) i (KRun a) KRecv Hi) as Hn.
      constructor; ctl_crush.
Qed.

Lemma live_count_replicate n :
  List.filter live (replicate n KRecv) = replicate n KRecv.
Proof. induction n as [|n IH]; simpl; [reflexivity|]. now rewrite IH. Qed.

Lemma Forall_replicate_KRecv (P : WorkerPc -> Prop) n :
  P KRecv -> Forall P (replicate n KRecv).
Proof. intros HP. induction n; simpl; constructor; auto. Qed.

Lemma control_walker_step input jobs s s' :
  control input jobs s -> exited s = None ->
  walker_step jobs s = Some s' -> control input jobs s'.
Proof.
  intros [HjG Hpool Hopen Hclosed Hmode Hmain Hexit Hflag Hdr Hh Hrep] Hex Hst.
  unfold walker_step in Hst.
  destruct (walker s) as [| | |[|e rest]|path rest|a rest|[|]| | | | |] eqn:Hw;
    try discriminate.
  - (* counting pass *)
    destruct (Walk count_fn root (totalWork s)) as [n err] eqn:Hcount.
    pose proof (Walk_count_nil root (totalWork s)) as Hnil.
    rewrite Hcount in Hnil. simpl in Hnil. subst err.
    injection Hst as <-. constructor; ctl_crush.
  - (* pool *)
    destruct (jobs >? 1) eqn:Hjobs; injection Hst as <-.
    + rewrite Hpool in HjG. simpl in HjG. apply Z.gtb_lt in Hjobs.
      constructor; ctl_crush;
        rewrite ?live_count_replicate, ?length_replicate;
        try solve [repeat case_pc;
                   intuition (auto using Forall_replicate_KRecv; lia)].
    + constructor; ctl_crush.
  - injection Hst as <-. constructor; ctl_crush.
  - injection Hst as <-. unfold dispatch_fn.
    constructor; ctl_crush.
  - destruct (tasks_closed s) eqn:Hc; [|discriminate].
    ctl_crush.
  - destruct (analyse_step a (sh s)) as [sh' [a'|]] eqn:Ha;
      injection Hst as <-;
      pose proof (analyse_step_reports _ _ _ _ Ha) as Hr;
      constructor; ctl_crush.
  - injection Hst as <-. unfold close_tasks.
    constructor; ctl_crush.
  - destruct (jobs >? 1) eqn:Hjobs; injection Hst as <-; unfold close_tasks;
    constructor; ctl_crush.
  - destruct (decide (jobGroup s = 0)) as [Hz|Hz]; [|discriminate].
    injection Hst as <-. constructor; ctl_crush.
    intros _. apply live_count_none. lia.
  - injection Hst as <-. constructor; ctl_crush.
  - injection Hst as <-. unfold mainGroup_Done.
    assert (mainGroup s = 1) as Hmg.
    { destruct (main_pc s); intuition discriminate. }
    rewrite Hmg. simpl.
    constructor; ctl_crush.
Qed.

Lemma control_step input jobs l s s' :
  control input jobs s -> step input jobs l s = Some s' ->
  control input jobs s'.
Proof.
  intros Hc Hst. unfold step in Hst.
  destruct (exited s) eqn:Hex; [discriminate|].
  destruct l as [| |i|i|].
  - eapply control_main_step; eauto.
  - eapply control_walker_step; eauto.
  - eapply control_send_step; eauto.
  - eapply control_worker_step; eauto.
  - eapply control_handler_step; eauto.
Qed.

(** An invariant of the steps holds after every schedule. *)
Lemma run_invariant (P : state -> Prop) input jobs :
  (forall l s s', P s -> step input jobs l s = Some s' -> P s') ->
  forall ls s s', P s -> run input jobs ls s = Some s' -> P s'.
Proof.
  intros Hstep ls. induction ls as [|l ls IH]; intros s s' Hs Hrun; simpl in Hrun.
  - now injection Hrun as <-.
  - destruct (step input jobs l s) as [s1|] eqn:Hst; [|discriminate].
    eapply IH; [|exact Hrun]. eapply Hstep; eauto.
Qed.

Lemma run_app input jobs ls1 ls2 s :
  run input jobs (ls1 ++ ls2) s =
  match run input jobs ls1 s with
  | Some s1 => run input jobs ls2 s1
  | None => None
  end.
Proof.
  revert s. induction ls1 as [|l ls1 IH]; intros s; simpl; [reflexivity|].
  destruct (step input jobs l s); [apply IH|reflexivity].
Qed.

Lemma reachable_control input jobs s :
  reachable input jobs s -> control input jobs s.
Proof.
  intros [ls Hrun].
  eapply (run_invariant (control input jobs)); [|apply control_init|exact Hrun].
  intros l s1 s2. apply control_step.
Qed.

(** ** The maps and the reads *)

Lemma tables_ok_init : tables_ok shared0.
Proof. intros [|]; reflexivity. Qed.

Lemma tables_ok_print o x : tables_ok x -> tables_ok (print o x).
Proof. intros H [|]; [apply (H CODE)|apply (H STRINGS)]. Qed.

Lemma tables_ok_analyse_step a x x' oa :
  tables_ok x -> analyse_step a x = (x', oa) -> tables_ok x'.
Proof.
  intros H. pose proof (H CODE) as Hc. pose proof (H STRINGS) as Hs.
  simpl in Hc, Hs.
  destruct a as [path|mf|mf]; simpl.
  - destruct (disk path); intros [= <- <-]; auto using tables_ok_print.
  - destruct (sect_text mf) as [[b|]|]; intros [= <- <-]; auto.
    intros [|]; simpl; [|exact Hs]. unfold table_of in *. simpl. now rewrite Hc.
  - destruct (sect_cstring mf) as [[b|]|]; intros [= <- <-]; auto.
    intros [|]; simpl; [exact Hc|]. unfold table_of in *. simpl. now rewrite Hs.
Qed.

Lemma tables_ok_step input jobs l s s' :
  tables_ok (sh s) -> step input jobs l s = Some s' -> tables_ok (sh s').
Proof.
  intros H Hst. unfold step in Hst.
  destruct (exited s); [discriminate|].
  destruct l as [| |i|i|].
  - unfold main_step in Hst. destruct (main_pc s).
    + destruct (decide _); injection Hst as <-; simpl;
        auto using tables_ok_print.
    + destruct (decide _); [|discriminate]. now injection Hst as <-.
  - unfold walker_step in Hst.
    destruct (walker s) as [| | |[|e rest]|path rest|a rest|[|]| | | | |];
      try discriminate.
    + destruct (Walk count_fn root (totalWork s)) as [n [err|]];
        injection Hst as <-; simpl; auto using tables_ok_print.
    + destruct (jobs >? 1); now injection Hst as <-.
    + now injection Hst as <-.
    + now injection Hst as <-.
    + destruct (tasks_closed s); [|discriminate]. now injection Hst as <-.
    + destruct (analyse_step a (sh s)) as [x' [a'|]] eqn:Ha;
        injection Hst as <-; simpl; eauto using tables_ok_analyse_step.
    + injection Hst as <-. unfold close_tasks. now destruct (tasks_closed s).
    + destruct (jobs >? 1); injection Hst as <-; [|assumption].
      unfold close_tasks. now destruct (tasks_closed s).
    + destruct (decide _); [|discriminate]. now injection Hst as <-.
    + injection Hst as <-. simpl. now apply tables_ok_print.
    + injection Hst as <-. unfold mainGroup_Done.
      now destruct (mainGroup s - 1 <? 0).
  - unfold send_step in Hst.
    destruct (walker s); try discriminate.
    destruct (workers s !! i) as [[| |]|]; try discriminate.
    destruct (tasks_closed s); [discriminate|]. now injection Hst as <-.
  - unfold worker_step in Hst.
    destruct (workers s !! i) as [[|a|]|]; try discriminate.
    + destruct (tasks_closed s); [|discriminate]. injection Hst as <-.
      unfold jobGroup_Done. simpl. now destruct (jobGroup s - 1 <? 0).
    + destruct (analyse_step a (sh s)) as [x' [a'|]] eqn:Ha;
        injection Hst as <-; simpl; eauto using tables_ok_analyse_step.
  - unfold handler_step in Hst.
    destruct (handler s).
    + injection Hst as <-. simpl. now apply tables_ok_print.
    + now injection Hst as <-.
    + destruct (decide _); [|discriminate]. now injection Hst as <-.
    + injection Hst as <-. simpl. now apply tables_ok_print.
    + now injection Hst as <-.
Qed.

Lemma reachable_tables_ok input jobs s :
  reachable input jobs s -> tables_ok (sh s).
Proof.
  intros [ls Hrun].
  apply (run_invariant (fun s => tables_ok (sh s)) input jobs
           (tables_ok_step input jobs) ls init s tables_ok_init Hrun).
Qed.

(** ** Every region once *)

(** A step of [analyseBinary] moves at most one buffer from the reads
    ahead to the reads made. *)
Lemma analyse_step_reads c a x x' oa :
  analyse_step a x = (x', oa) ->
  exists delta,
    reads c x' = delta ++ reads c x /\
    apc_region c a = delta ++ next_region c oa.
Proof.
  destruct a as [path|mf|mf]; simpl.
  - destruct (disk path) as [msg| |mf]; intros [= <- <-]; exists [];
      destruct c; simpl; auto.
  - destruct (sect_text mf) as [[b|]|] eqn:Ht; intros [= <- <-];
      destruct c; simpl; rewrite ?Ht;
      first [now exists [b] | now exists []].
  - destruct (sect_cstring mf) as [[b|]|] eqn:Hs; intros [= <- <-];
      destruct c; simpl;
      first [now exists [b] | now exists []].
Qed.

Lemma workers_region_insert c (ws : list WorkerPc) i w :
  ws !! i = Some w ->
  exists others,
    workers_region c ws ≡ₚ worker_region c w ++ others /\
    forall w', workers_region c (<[i:=w']> ws) ≡ₚ worker_region c w' ++ others.
Proof.
  unfold workers_region.
  revert i. induction ws as [|x ws IH]; intros [|i] Hi; simpl in *;
    try discriminate.
  - injection Hi as ->. exists (concat (map (worker_region c) ws)).
    split; [reflexivity|]. intros w'. reflexivity.
  - destruct (IH i Hi) as (others & H1 & H2).
    exists (worker_region c x ++ others). split.
    + rewrite H1. solve_Permutation.
    + intros w'. rewrite H2. solve_Permutation.
Qed.

Lemma workers_region_replicate c n :
  workers_region c (replicate n KRecv) = [].
Proof. unfold workers_region. induction n; simpl; auto. Qed.

Lemma candidates_cons e rest :
  candidates (e :: rest) =
  if to_analyse e then e_path e :: candidates rest else candidates rest.
Proof. unfold candidates. simpl. now destruct (to_analyse e). Qed.

Lemma stopped_step input jobs l s s' :
  control input jobs s ->
  step input jobs l s = Some s' -> stopped s' = false -> stopped s = false.
Proof.
  intros Hctl Hst. unfold step in Hst.
  destruct (exited s); [discriminate|].
  unfold stopped.
  destruct l as [| |i|i|].
  - unfold main_step in Hst.
    pose proof (ctl_main _ _ _ Hctl) as Hm.
    destruct (main_pc s).
    + destruct Hm as [Hw _]. now rewrite Hw.
    + destruct (decide _); [|discriminate]. now injection Hst as <-.
  - unfold walker_step in Hst.
    destruct (walker s) as [| | |[|e rest]|path rest|a rest|[|]| | | | |];
      try discriminate; auto.
    injection Hst as <-. simpl. discriminate.
  - unfold send_step in Hst.
    destruct (walker s); try discriminate. auto.
  - unfold worker_step in Hst.
    destruct (workers s !! i) as [[|a|]|]; try discriminate.
    + destruct (tasks_closed s); [|discriminate]. injection Hst as <-.
      unfold jobGroup_Done. simpl. now destruct (jobGroup s - 1 <? 0).
    + destruct (analyse_step a (sh s)) as [x' [a'|]];
        now injection Hst as <-.
  - unfold handler_step in Hst.
    destruct (handler s); try (now injection Hst as <-).
    destruct (decide _); [|discriminate]. now injection Hst as <-.
Qed.

Lemma accounted_step input jobs l s s' c :
  control input jobs s ->
  accounted c s -> step input jobs l s = Some s' ->
  stopped s' = false -> accounted c s'.
Proof.
  intros Hctl Hacc Hst Hns. unfold step in Hst.
  destruct (exited s); [discriminate|].
  unfold accounted in *. unfold stopped in Hns.
  destruct l as [| |i|i|].
  - unfold main_step in Hst.
    pose proof (ctl_main _ _ _ Hctl) as Hm.
    destruct (main_pc s).
    + destruct Hm as [Hw _]. rewrite Hw in Hacc.
      destruct (decide _); injection Hst as <-; simpl.
      * rewrite Hw. destruct c; exact Hacc.
      * exact Hacc.
    + destruct (decide _); [|discriminate]. now injection Hst as <-.
  - unfold walker_step in Hst.
    pose proof (ctl_pool _ _ _ Hctl) as Hpool.
    destruct (walker s) as [| | |[|e rest]|path rest|a rest|[|]| | | | |]
      eqn:Hw; try discriminate.
    + destruct (Walk count_fn root (totalWork s)) as [n [err|]];
        injection Hst as <-; simpl; destruct c; exact Hacc.
    + destruct (jobs >? 1); injection Hst as <-; simpl; [|exact Hacc].
      rewrite workers_region_replicate. rewrite Hpool in Hacc. exact Hacc.
    + injection Hst as <-. simpl. exact Hacc.
    + injection Hst as <-. simpl in *. unfold dispatch_fn in *.
      rewrite candidates_cons in Hacc. unfold to_analyse in Hacc.
      destruct (e_err e); simpl in *; [exact Hacc|].
      destruct (interrupted s); [discriminate|].
      destruct (candidate e); [|exact Hacc].
      destruct (jobs >? 1); simpl; exact Hacc.
    + destruct (tasks_closed s); [|discriminate]. injection Hst as <-.
      simpl. rewrite Hw. exact Hacc.
    + destruct (analyse_step a (sh s)) as [x' [a'|]] eqn:Ha;
        injection Hst as <-; simpl in *;
        destruct (analyse_step_reads c _ _ _ _ Ha) as (delta & Hr & Hn);
        rewrite Hr; rewrite Hn in Hacc; simpl in Hacc;
        rewrite <- Hacc; solve_Permutation.
    + injection Hst as <-. unfold close_tasks in Hns.
      destruct (tasks_closed s); discriminate.
    + destruct (jobs >? 1); injection Hst as <-; [|exact Hacc].
      unfold close_tasks. now destruct (tasks_closed s).
    + destruct (decide _); [|discriminate]. now injection Hst as <-.
    + injection Hst as <-. simpl. destruct c; exact Hacc.
    + injection Hst as <-. unfold mainGroup_Done.
      now destruct (mainGroup s - 1 <? 0).
  - unfold send_step in Hst.
    destruct (walker s); try discriminate.
    destruct (workers s !! i) as [[| |]|] eqn:Hi; try discriminate.
    destruct (tasks_closed s); [discriminate|]. injection Hst as <-.
    simpl in *.
    destruct (workers_region_insert c _ _ _ Hi) as (others & H1 & H2).
    rewrite H2. rewrite H1 in Hacc. simpl in *.
    rewrite <- Hacc. solve_Permutation.
  - unfold worker_step in Hst.
    destruct (workers s !! i) as [[|a|]|] eqn:Hi; try discriminate.
    + destruct (tasks_closed s); [|discriminate]. injection Hst as <-.
      destruct (workers_region_insert c _ _ _ Hi) as (others & H1 & H2).
      rewrite H1 in Hacc.
      unfold jobGroup_Done. simpl.
      destruct (jobGroup s - 1 <? 0); simpl; rewrite H2; exact Hacc.
    + destruct (workers_region_insert c _ _ _ Hi) as (others & H1 & H2).
      rewrite H1 in Hacc.
      destruct (analyse_step a (sh s)) as [x' [a'|]] eqn:Ha;
        injection Hst as <-; simpl in *;
        destruct (analyse_step_reads c _ _ _ _ Ha) as (delta & Hr & Hn);
        rewrite Hr, H2; rewrite Hn in Hacc; simpl in *;
        rewrite <- Hacc; solve_Permutation.
  - unfold handler_step in Hst.
    destruct (handler s); try (injection Hst as <-; destruct c; exact Hacc).
    destruct (decide _); [|discriminate]. now injection Hst as <-.
Qed.

Lemma accounted_init c : accounted c init.
Proof.
  unfold accounted. simpl. destruct c; simpl; now rewrite app_nil_r.
Qed.

Lemma reachable_accounted input jobs s c :
  reachable input jobs s -> stopped s = false -> accounted c s.
Proof.
  intros [ls Hrun].
  assert (control input jobs s /\ (stopped s = false -> accounted c s))
    as [_ H]; [|exact H].
  apply (run_invariant
           (fun s => control input jobs s /\
                     (stopped s = false -> accounted c s))
           input jobs) with (ls := ls) (s := init); [| |exact Hrun].
  - intros l s1 s2 [Hctl Hacc] Hst. split.
    + eapply control_step; eauto.
    + intros Hns. eapply accounted_step; eauto.
      apply Hacc. eapply stopped_step; eauto.
  - split; [apply control_init|]. intros _. apply accounted_init.
Qed.

Lemma workers_region_done c (ws : list WorkerPc) :
  Forall (fun w => w = KDone) ws -> workers_region c ws = [].
Proof.
  unfold workers_region.
  induction 1 as [|w ws -> _ IH]; simpl; auto.
Qed.

(** When [analyseFolder] reaches its [showResults()], the reads made are
    the regions of the samples of the tree, each once. *)
Lemma completed_reads input jobs s c :
  reachable input jobs s -> completed s = true ->
  reads c (sh s) ≡ₚ regions c (candidates (entries root)).
Proof.
  intros Hr Hc.
  pose proof (reachable_control _ _ _ Hr) as Hctl.
  assert (stopped s = false) as Hns.
  { unfold completed in Hc. unfold stopped.
    destruct (walker s) as [| | | | | |[|]| | | | |]; auto; discriminate. }
  pose proof (reachable_accounted _ _ _ c Hr Hns) as Hacc.
  unfold accounted in Hacc.
  rewrite (workers_region_done c (workers s)) in Hacc
    by (apply (ctl_drained _ _ _ Hctl Hc)).
  unfold completed in Hc.
  destruct (walker s); try discriminate; simpl in Hacc;
    now rewrite app_nil_r in Hacc.
Qed.

(** ... and the maps are the expected ones. *)
Lemma completed_tables input jobs s c :
  reachable input jobs s -> completed s = true ->
  hashes c (sh s) = expected c.
Proof.
  intros Hr Hc.
  rewrite (reachable_tables_ok _ _ _ Hr c). unfold expected.
  apply table_of_perm, Permutation_map.
  eapply completed_reads; eauto.
Qed.

(** * The sequential code *)

Lemma analyse_steps_analyseBinary path x :
  analyse_steps 3 (AOpen path) x = analyseBinary path x.
Proof.
  unfold analyseBinary. simpl.
  destruct (disk path) as [msg| |mf]; try reflexivity.
  simpl. destruct (sect_text mf) as [[b|]|]; try reflexivity;
    simpl; now destruct (sect_cstring mf) as [[b'|]|].
Qed.

(** C4. A file that [macho.NewFile] does not accept leaves the two maps,
    and the output, as they were: [analyseBinary] returns at line 115
    without having touched the shared state, and so does its first step in
    the interleaving. *)
Theorem not_macho_no_effect path x :
  disk path = NotMacho ->
  analyseBinary path x = x /\
  analyse_step (AOpen path) x = (x, None) /\
  forall c, hashes c (analyseBinary path x) = hashes c x.
Proof.
  intros Hd. unfold analyseBinary. simpl. rewrite Hd. auto.
Qed.

(** C9. The two sections of one file are not handled atomically: when
    reading [__text] fails, [analyseBinary] returns and the file counts in
    neither map; when [__text] was counted and reading [__cstring] fails,
    the count of [__text] stays. *)
Theorem sections_not_atomic path mf x :
  disk path = Macho mf ->
  (sect_text mf = Some ReadErr -> analyseBinary path x = x) /\
  (forall b,
     sect_text mf = Some (ReadOk b) -> sect_cstring mf = Some ReadErr ->
     analyseBinary path x = add_code b (get_sha256 b) x /\
     codeHashes (analyseBinary path x) = incr (get_sha256 b) (codeHashes x) /\
     cstringHashes (analyseBinary path x) = cstringHashes x).
Proof.
  intros Hd. unfold analyseBinary. rewrite Hd. split.
  - intros ->. reflexivity.
  - intros b -> ->. auto.
Qed.

(** C8. An entry the walk reports with an error is skipped by both walk
    functions, which return [nil]: the counting pass leaves [totalWork] as
    it was and goes on with the entries after it, the dispatch pass moves to
    the next entry without looking at the flag or scheduling anything, and
    the counting walk of any tree ends without error, having called the
    function on every entry. *)
Theorem walk_errors_skipped jobs e rest s n :
  e_err e = true ->
  count_fn e n = (n, None) /\
  (forall before, walk_list count_fn (before ++ e :: rest) n =
                  walk_list count_fn (before ++ rest) n) /\
  dispatch_fn jobs e rest s = WWalk rest /\
  (walker s = WWalk (e :: rest) ->
   walker_step jobs s = Some (set_walker (WWalk rest) s)) /\
  Walk count_fn root n = walk_list count_fn (entries root) n /\
  snd (Walk count_fn root n) = None.
Proof.
  intros He.
  assert (count_fn e n = (n, None)) as Hcount.
  { unfold count_fn. now rewrite He. }
  assert (dispatch_fn jobs e rest s = WWalk rest) as Hdisp.
  { unfold dispatch_fn. now rewrite He. }
  repeat split.
  - exact Hcount.
  - intros before. rewrite !walk_list_app.
    destruct (walk_list count_fn before n) as [m [err|]]; [reflexivity|].
    simpl. unfold count_fn at 1. now rewrite He.
  - exact Hdisp.
  - intros Hw. unfold walker_step. rewrite Hw. now rewrite Hdisp.
  - apply Walk_entries, count_fn_no_skip.
  - apply Walk_count_nil.
Qed.

(** ** Runs that no signal reaches end *)














(** * The whole process *)




(** C1. In every state of every run, the count a map holds for a digest is
    the number of section reads of that category that succeeded and hash to
    it (as long as that number fits an [int]), and a digest is missing from
    the map exactly when no such read was made.  When [analyseFolder]
    reaches its report, the reads that were made are the sections of the
    samples of the tree, each exactly once, whatever the interleaving of the
    workers. *)
Theorem accounting_identity input jobs s c d :
  reachable input jobs s ->
  let counted := occurrences d (map get_sha256 (reads c (sh s))) in
  (hashes c (sh s) !! d = None <-> counted = O) /\
  (forall n, hashes c (sh s) !! d = Some n ->
     Z.of_nat counted < 2 ^ 63 -> n = Z.of_nat counted) /\
  (completed s = true ->
     reads c (sh s) ≡ₚ regions c (candidates (entries root))).
Proof.
  intros Hr counted.
  pose proof (reachable_tables_ok _ _ _ Hr c) as Ht.
  pose proof (table_of_lookup (map get_sha256 (reads c (sh s))) d) as Hl.
  rewrite <- Ht in Hl. fold counted in Hl.
  split; [|split].
  - rewrite Hl. destruct counted; split; congruence.
  - intros n Hn Hb. rewrite Hl in Hn.
    destruct counted as [|k] eqn:Hk; [discriminate|].
    injection Hn as <-. apply int_wrap_small. lia.
  - intros Hc. eapply completed_reads; eauto.
Qed.



Lemma not_in_print o x :
  o <> OutWalkError -> ~ In OutWalkError (stdout x) ->
  ~ In OutWalkError (stdout (print o x)).
Proof.
  intros Ho Hx. simpl. rewrite in_app_iff. simpl. intuition congruence.
Qed.

Lemma analyse_step_no_walk_error a x x' oa :
  analyse_step a x = (x', oa) ->
  ~ In OutWalkError (stdout x) -> ~ In OutWalkError (stdout x').
Proof.
  destruct a as [path|mf|mf]; simpl.
  - destruct (disk path); intros [= <- <-]; auto.
    apply not_in_print. discriminate.
  - destruct (sect_text mf) as [[b|]|]; intros [= <- <-]; auto.
  - destruct (sect_cstring mf) as [[b|]|]; intros [= <- <-]; auto.
Qed.

(** The message of lines 164 and 214 is never printed: the walk functions
    return nothing but [nil] and [io.EOF]. *)
Lemma no_walk_error_step input jobs l s s' :
  ~ In OutWalkError (stdout (sh s)) -> step input jobs l s = Some s' ->
  ~ In OutWalkError (stdout (sh s')).
Proof.
  intros H Hst. unfold step in Hst.
  destruct (exited s); [discriminate|].
  destruct l as [| |i|i|].
  - unfold main_step in Hst. destruct (main_pc s).
    + destruct (decide _); injection Hst as <-; auto.
      apply not_in_print; [discriminate|exact H].
    + destruct (decide _); [|discriminate]. now injection Hst as <-.
  - unfold walker_step in Hst.
    destruct (walker s) as [| | |[|e rest]|path rest|a rest|[|]| | | | |];
      try discriminate.
    + pose proof (Walk_count_nil root (totalWork s)) as Hnil.
      destruct (Walk count_fn root (totalWork s)) as [n err].
      simpl in Hnil. subst err. now injection Hst as <-.
    + destruct (jobs >? 1); now injection Hst as <-.
    + now injection Hst as <-.
    + now injection Hst as <-.
    + destruct (tasks_closed s); [|discriminate]. now injection Hst as <-.
    + destruct (analyse_step a (sh s)) as [x' [a'|]] eqn:Ha;
        injection Hst as <-; simpl; eauto using analyse_step_no_walk_error.
    + injection Hst as <-. unfold close_tasks. now destruct (tasks_closed s).
    + destruct (jobs >? 1); injection Hst as <-; [|assumption].
      unfold close_tasks. now destruct (tasks_closed s).
    + destruct (decide _); [|discriminate]. now injection Hst as <-.
    + injection Hst as <-. apply not_in_print; [discriminate|exact H].
    + injection Hst as <-. unfold mainGroup_Done.
      now destruct (mainGroup s - 1 <? 0).
  - unfold send_step in Hst.
    destruct (walker s); try discriminate.
    destruct (workers s !! i) as [[| |]|]; try discriminate.
    destruct (tasks_closed s); [discriminate|]. now injection Hst as <-.
  - unfold worker_step in Hst.
    destruct (workers s !! i) as [[|a|]|]; try discriminate.
    + destruct (tasks_closed s); [|discriminate]. injection Hst as <-.
      unfold jobGroup_Done. simpl. now destruct (jobGroup s - 1 <? 0).
    + destruct (analyse_step a (sh s)) as [x' [a'|]] eqn:Ha;
        injection Hst as <-; simpl; eauto using analyse_step_no_walk_error.
  - unfold handler_step in Hst.
    destruct (handler s).
    + injection Hst as <-. apply not_in_print; [discriminate|exact H].
    + now injection Hst as <-.
    + destruct (decide _); [|discriminate]. now injection Hst as <-.
    + injection Hst as <-. apply not_in_print; [discriminate|exact H].
    + now injection Hst as <-.
Qed.

Lemma reachable_no_walk_error input jobs s :
  reachable input jobs s -> ~ In OutWalkError (stdout (sh s)).
Proof.
  intros [ls Hrun].
  apply (run_invariant (fun s => ~ In OutWalkError (stdout (sh s))) input jobs
           (no_walk_error_step input jobs) ls init s); [|exact Hrun].
  simpl. auto.
Qed.

(** Once the walk was cut, [analyseFolder] only closes [tasks] and
    returns. *)
Lemma stopped_stays input jobs l s s' :
  control input jobs s ->
  stopped s = true -> step input jobs l s = Some s' -> stopped s' = true.
Proof.
  intros Hctl Hs Hst. unfold step in Hst. unfold stopped in *.
  destruct (exited s); [discriminate|].
  destruct l as [| |i|i|].
  - unfold main_step in Hst.
    pose proof (ctl_main _ _ _ Hctl) as Hm.
    destruct (main_pc s).
    + destruct Hm as [Hw _]. rewrite Hw in Hs. discriminate.
    + destruct (decide _); [|discriminate]. now injection Hst as <-.
  - unfold walker_step in Hst.
    destruct (walker s) as [| | |[|e rest]|path rest|a rest|[|]| | | | |];
      try discriminate.
    now injection Hst as <-.
  - unfold send_step in Hst.
    destruct (walker s); discriminate.
  - unfold worker_step in Hst.
    destruct (workers s !! i) as [[|a|]|]; try discriminate.
    + destruct (tasks_closed s); [|discriminate]. injection Hst as <-.
      unfold jobGroup_Done. simpl. now destruct (jobGroup s - 1 <? 0).
    + destruct (analyse_step a (sh s)) as [x' [a'|]];
        now injection Hst as <-.
  - unfold handler_step in Hst.
    destruct (handler s); try (now injection Hst as <-).
    destruct (decide _); [|discriminate]. now injection Hst as <-.
Qed.

Lemma stopped_run input jobs ls s s' :
  control input jobs s -> stopped s = true ->
  run input jobs ls s = Some s' -> control input jobs s' /\ stopped s' = true.
Proof.
  intros Hctl Hs Hrun.
  apply (run_invariant
           (fun s => control input jobs s /\ stopped s = true) input jobs)
    with (ls := ls) (s := s); [|auto|exact Hrun].
  intros l s1 s2 [H1 H2] Hst. split.
  - eapply control_step; eauto.
  - eapply stopped_stays; eauto.
Qed.

(** C5, as the code has it.  When the walk function finds the flag set at
    an entry without error it returns [io.EOF]: [analyseFolder] leaves the
    walk without scheduling that entry or any later one and without a
    message, closes [tasks], which was open, and returns; from then on
    nothing is sent on [tasks], every worker waiting in [<- tasks] can
    return, and the process never ends while a worker is inside
    [analyseBinary].  The message for walk errors is never printed. *)
Theorem cancellation_observed input jobs s :
  reachable input jobs s ->
  (forall e rest,
     walker s = WWalk (e :: rest) -> e_err e = false ->
     interrupted s = true -> exited s = None ->
     step input jobs LWalker s = Some (set_walker (WReturned true) s)) /\
  (walker s = WReturned true -> exited s = None ->
     tasks_closed s = false /\
     exists s',
       step input jobs LWalker s = Some s' /\
       walker s' = WStopped /\ tasks_closed s' = true /\
       exited s' = None /\ stdout (sh s') = stdout (sh s)) /\
  (stopped s = true ->
     forall ls s', run input jobs ls s = Some s' ->
       stopped s' = true /\ forall i, send_step i s' = None) /\
  (tasks_closed s = true -> exited s = None ->
     forall i, workers s !! i = Some KRecv ->
       exists s',
         step input jobs (LWorker i) s = Some s' /\
         workers s' !! i = Some KDone /\ exited s' = None) /\
  (forall code, exited s = Some code ->
     Forall (fun w => running w = false) (workers s)) /\
  ~ In OutWalkError (stdout (sh s)).
Proof.
  intros Hr.
  pose proof (reachable_control _ _ _ Hr) as Hctl.
  repeat apply conj.
  - intros e rest Hw He Hi Hex. unfold step, walker_step, dispatch_fn.
    now rewrite Hex, Hw, He, Hi.
  - intros Hw Hex.
    pose proof (ctl_closed _ _ _ Hctl) as Hc. rewrite Hw in Hc. simpl in Hc.
    split; [exact Hc|].
    eexists. unfold step, walker_step, close_tasks.
    rewrite Hex, Hw, Hc. simpl. repeat split.
  - intros Hs ls s' Hrun.
    destruct (stopped_run _ _ _ _ _ Hctl Hs Hrun) as [_ Hs'].
    split; [exact Hs'|]. intros i. unfold send_step.
    unfold stopped in Hs'.
    destruct (walker s'); try discriminate; reflexivity.
  - intros Hc Hex i Hi.
    pose proof (live_count_insert (workers s) i KRecv KDone Hi) as Hn.
    pose proof (ctl_jobGroup _ _ _ Hctl) as HjG. simpl in Hn.
    eexists. unfold step, worker_step, jobGroup_Done.
    rewrite Hex, Hi, Hc. simpl.
    destruct (jobGroup s - 1 <? 0) eqn:Hneg.
    { apply Z.ltb_lt in Hneg. lia. }
    split; [reflexivity|]. simpl. split; [|exact Hex].
    apply list_lookup_insert_eq. eapply lookup_lt_Some; eauto.
  - intros code Hex.
    pose proof (ctl_exit _ _ _ Hctl) as He. rewrite Hex in He.
    pose proof (ctl_main _ _ _ Hctl) as Hm.
    pose proof (ctl_pool _ _ _ Hctl) as Hp.
    destruct He as [(_ & Hin)|(_ & [Hh|Hw])].
    + destruct (main_pc s).
      * destruct Hm as [Hw _]. rewrite Hw in Hp. rewrite Hp. constructor.
      * destruct Hm as (_ & Hne & _). contradiction.
    + pose proof (ctl_handler _ _ _ Hctl) as Hh'. rewrite Hh in Hh'.
      apply Hh'.
    + apply done_not_running. apply (ctl_drained _ _ _ Hctl).
      unfold completed. now rewrite Hw.
  - now apply reachable_no_walk_error with (input := input) (jobs := jobs).
Qed.


(** A process that ends with status 0 has printed the report, once or
    twice. *)
Lemma report_at_exit input jobs s :
  reachable input jobs s -> exited s = Some 0 ->
  (1 <= reports (stdout (sh s)) <= 2)%nat.
Proof.
  intros Hr Hex.
  pose proof (reachable_control _ _ _ Hr) as Hctl.
  pose proof (ctl_exit _ _ _ Hctl) as He. rewrite Hex in He.
  rewrite (ctl_reports _ _ _ Hctl).
  destruct He as [[He _]|(_ & [Hh|Hw])]; [discriminate| |].
  - rewrite Hh. simpl. destruct (walker s); simpl; lia.
  - rewrite Hw. simpl. destruct (handler s); simpl; lia.
Qed.

(** * Further properties of the code *)

(** ** The digest string *)

Lemma hex_byte_value b :
  (16 * hex_value (hex_digit (N.shiftr (Byte.to_N b) 4))
   + hex_value (hex_digit (N.land (Byte.to_N b) 15)))%N = Byte.to_N b.
Proof. destruct b; vm_compute; reflexivity. Qed.


Lemma hex_EncodeToString_inj bs1 bs2 :
  hex_EncodeToString bs1 = hex_EncodeToString bs2 -> bs1 = bs2.
Proof.
  revert bs2. induction bs1 as [|b1 bs1 IH]; intros [|b2 bs2] H;
    simpl in H; try discriminate; [reflexivity|].
  injection H as Hhi Hlo Hrest.
  f_equal; [|now apply IH].
  assert (Byte.to_N b1 = Byte.to_N b2) as Hn.
  { rewrite <- (hex_byte_value b1), <- (hex_byte_value b2).
    now rewrite Hhi, Hlo. }
  pose proof (Byte.of_to_N b1) as H1. pose proof (Byte.of_to_N b2) as H2.
  rewrite Hn in H1. congruence.
Qed.


(** The hexadecimal form loses nothing: two buffers have the same digest
    string exactly when they have the same SHA-256 sum, so two regions are
    counted under one key of a map only when their sums are equal. *)
Theorem get_sha256_same_sum b1 b2 :
  get_sha256 b1 = get_sha256 b2 <-> sha256_Sum b1 = sha256_Sum b2.
Proof.
  unfold get_sha256. split.
  - apply hex_EncodeToString_inj.
  - intros ->. reflexivity.
Qed.

(** ** A case analysis of the steps *)

(** [step_cases Hst s] turns [Hst : step input jobs l s = Some s'] into one
    goal per statement a goroutine can execute, with [s'] replaced by the
    state after it. *)
Ltac step_cases Hst s :=
  unfold step in Hst;
  destruct (exited s) eqn:Hexited; [discriminate Hst|];
  match type of Hst with
  | match ?l with LMain => _ | _ => _ end = _ => destruct l as [| |?i|?i|]
  end;
  [ unfold main_step in Hst;
    destruct (main_pc s) eqn:Hmain_pc;
    [ destruct (decide _) as [Hinput|Hinput]; injection Hst as <-
    | destruct (decide (mainGroup s = 0)) as [HmainGroup|HmainGroup];
      [injection Hst as <-|discriminate Hst] ]
  | unfold walker_step in Hst;
    destruct (walker s) as [| | |[|?e ?rest]|?path ?rest|?a ?rest|[|]| | | | |]
      eqn:Hwalker; try discriminate Hst;
    [ destruct (Walk count_fn root (totalWork s)) as [?n ?err] eqn:Hcount;
      injection Hst as <-
    | destruct (_ >? 1) eqn:Hjobs; injection Hst as <-
    | injection Hst as <-
    | injection Hst as <-
    | destruct (tasks_closed s) eqn:Hclosed;
      [injection Hst as <-|discriminate Hst]
    | destruct (analyse_step _ (sh s)) as [?x [?a'|]] eqn:Hanalyse;
      injection Hst as <-
    | injection Hst as <-
    | destruct (_ >? 1) eqn:Hjobs; injection Hst as <-
    | destruct (decide (jobGroup s = 0)) as [HjobGroup|HjobGroup];
      [injection Hst as <-|discriminate Hst]
    | injection Hst as <-
    | injection Hst as <- ]
  | unfold send_step in Hst;
    destruct (walker s) as [| | | |?path ?rest| | | | | | |] eqn:Hwalker;
    try discriminate Hst;
    destruct (workers s !! _) as [[| |]|] eqn:Hworker; try discriminate Hst;
    destruct (tasks_closed s) eqn:Hclosed;
    [discriminate Hst|injection Hst as <-]
  | unfold worker_step in Hst;
    destruct (workers s !! _) as [[|?a|]|] eqn:Hworker;
    try discriminate Hst;
    [ destruct (tasks_closed s) eqn:Hclosed;
      [injection Hst as <-|discriminate Hst]
    | destruct (analyse_step _ (sh s)) as [?x [?a'|]] eqn:Hanalyse;
      injection Hst as <- ]
  | unfold handler_step in Hst;
    destruct (handler s) eqn:Hhandler;
    [ injection Hst as <-
    | injection Hst as <-
    | destruct (decide (jobGroup s = 0)) as [HjobGroup|HjobGroup];
      [injection Hst as <-|discriminate Hst]
    | injection Hst as <-
    | injection Hst as <- ] ].

(** ** The counting pass *)

Lemma count_walk_total l m :
  fst (walk_list count_fn l (int_wrap m))
  = int_wrap (m + Z.of_nat (length (candidates l))).
Proof.
  revert m. induction l as [|e l IH]; intros m.
  - simpl. f_equal. lia.
  - rewrite candidates_cons. simpl. unfold count_fn at 1, to_analyse.
    destruct (e_err e); simpl.
    + apply IH.
    + destruct (candidate e); simpl.
      * rewrite int_wrap_succ, IH. f_equal. lia.
      * apply IH.
Qed.

Lemma totalWork_step input jobs l s s' :
  control input jobs s ->
  match walker s with
  | WNotStarted | WCount => totalWork s = 0
  | _ => totalWork s = int_wrap (Z.of_nat (length (candidates (entries root))))
  end ->
  step input jobs l s = Some s' ->
  match walker s' with
  | WNotStarted | WCount => totalWork s' = 0
  | _ => totalWork s' = int_wrap (Z.of_nat (length (candidates (entries root))))
  end.
Proof.
  intros Hctl H Hst.
  pose proof (ctl_main _ _ _ Hctl) as Hm.
  step_cases Hst s; simpl;
    unfold jobGroup_Done, close_tasks, mainGroup_Done, dispatch_fn;
    repeat match goal with
    | |- context [if ?b then _ else _] => destruct b
    end; simpl; rewrite ?Hwalker; auto.
  - destruct Hm as [Hw _]. now rewrite Hw in H.
  - pose proof (count_walk_total (entries root) 0) as Ht.
    rewrite <- (Walk_entries count_fn count_fn_no_skip) in Ht.
    change (int_wrap 0) with 0 in Ht. rewrite <- H in Ht at 1.
    rewrite Hcount in Ht. exact Ht.
Qed.

(** Once the counting pass is over, [totalWork], the length of the progress
    bar, is the number of entries the dispatch pass takes for samples:
    regular files of [fileSize] bytes met without a walk error.  Entries
    with an error, directories and files of another size are not
    counted. *)
Theorem totalWork_counts_samples input jobs s :
  reachable input jobs s ->
  walker s <> WNotStarted -> walker s <> WCount ->
  totalWork s = int_wrap (Z.of_nat (length (candidates (entries root)))) /\
  (Z.of_nat (length (candidates (entries root))) < 2 ^ 63 ->
   totalWork s = Z.of_nat (length (candidates (entries root)))) /\
  length (candidates (entries root))
  = length (List.filter
              (fun e => negb (e_err e) &&
                 match e_info e with
                 | Some info => IsRegular info && (Size info =? 172792)
                 | None => false
                 end)
              (entries root)).
Proof.
  intros [ls Hrun] Hw1 Hw2.
  assert (match walker s with
          | WNotStarted | WCount => totalWork s = 0
          | _ => totalWork s
                 = int_wrap (Z.of_nat (length (candidates (entries root))))
          end) as H.
  { assert (control input jobs s /\
            match walker s with
            | WNotStarted | WCount => totalWork s = 0
            | _ => totalWork s
                   = int_wrap (Z.of_nat (length (candidates (entries root))))
            end) as [_ H]; [|exact H].
    apply (run_invariant
             (fun s => control input jobs s /\
                match walker s with
                | WNotStarted | WCount => totalWork s = 0
                | _ => totalWork s
                       = int_wrap (Z.of_nat (length (candidates (entries root))))
                end) input jobs) with (ls := ls) (s := init);
      [|split; [apply control_init|reflexivity]|exact Hrun].
    intros l s1 s2 [Hc Ht] Hst. split.
    - eapply control_step; eauto.
    - eapply totalWork_step; eauto. }
  assert (totalWork s
          = int_wrap (Z.of_nat (length (candidates (entries root))))) as Ht.
  { destruct (walker s); try contradiction; exact H. }
  split; [exact Ht|]. split.
  - intros Hb. rewrite Ht. apply int_wrap_small. lia.
  - unfold candidates. rewrite length_map. reflexivity.
Qed.

(** ** [analyseBinary], alone and in sequence *)

Lemma incr_all_perm (m : table) l1 l2 :
  l1 ≡ₚ l2 -> foldr incr m l1 = foldr incr m l2.
Proof.
  induction 1 as [|x l l' _ IH|x y l|l l' l'' _ IH1 _ IH2]; simpl.
  - reflexivity.
  - now rewrite IH.
  - apply incr_comm.
  - congruence.
Qed.

Lemma regions_perm c ps1 ps2 :
  ps1 ≡ₚ ps2 -> regions c ps1 ≡ₚ regions c ps2.
Proof.
  unfold regions.
  induction 1 as [|p l l' _ IH|p q l|l l' l'' _ IH1 _ IH2]; simpl.
  - reflexivity.
  - now rewrite IH.
  - solve_Permutation.
  - now rewrite IH1.
Qed.

(** What one call of [analyseBinary] does to a map: one increment for the
    section of that category, if the file has it and it was read. *)
Lemma analyseBinary_hashes c path x :
  hashes c (analyseBinary path x)
  = foldr incr (hashes c x) (map get_sha256 (region_of c (disk path))) /\
  reads c (analyseBinary path x) = region_of c (disk path) ++ reads c x.
Proof.
  unfold analyseBinary.
  destruct (disk path) as [msg| |mf]; simpl; [destruct c; auto..|].
  unfold macho_region.
  destruct (sect_text mf) as [[b|]|]; destruct (sect_cstring mf) as [[b'|]|];
    destruct c; simpl; auto.
Qed.

Lemma analyseAll_hashes c paths x :
  hashes c (analyseAll paths x)
  = foldr incr (hashes c x) (map get_sha256 (regions c paths)).
Proof.
  unfold analyseAll. revert x.
  induction paths as [|p paths IH]; intros x; simpl; [reflexivity|].
  rewrite IH. destruct (analyseBinary_hashes c p x) as [-> _].
  rewrite <- foldr_app.
  apply incr_all_perm.
  unfold regions. simpl. rewrite map_app. solve_Permutation.
Qed.

(** The maps after analysing a list of files do not depend on the order
    of the files. *)
Theorem analyse_order_irrelevant paths1 paths2 x :
  paths1 ≡ₚ paths2 ->
  codeHashes (analyseAll paths1 x) = codeHashes (analyseAll paths2 x) /\
  cstringHashes (analyseAll paths1 x) = cstringHashes (analyseAll paths2 x).
Proof.
  intros Hp.
  pose proof (analyseAll_hashes CODE paths1 x) as H1.
  pose proof (analyseAll_hashes CODE paths2 x) as H2.
  pose proof (analyseAll_hashes STRINGS paths1 x) as H3.
  pose proof (analyseAll_hashes STRINGS paths2 x) as H4.
  simpl in H1, H2, H3, H4. rewrite H1, H2, H3, H4.
  split; apply incr_all_perm, Permutation_map, regions_perm; exact Hp.
Qed.

(** Whatever the number of workers and the interleaving, a run that
    reaches the report of [analyseFolder] has the maps that calling
    [analyseBinary] on the samples one after the other, in walk order,
    gives. *)
Theorem run_refines_sequential input jobs s :
  reachable input jobs s -> completed s = true ->
  codeHashes (sh s)
  = codeHashes (analyseAll (candidates (entries root)) shared0) /\
  cstringHashes (sh s)
  = cstringHashes (analyseAll (candidates (entries root)) shared0).
Proof.
  intros Hr Hc.
  pose proof (completed_tables _ _ _ CODE Hr Hc) as H1.
  pose proof (completed_tables _ _ _ STRINGS Hr Hc) as H2.
  pose proof (analyseAll_hashes CODE (candidates (entries root)) shared0) as H3.
  pose proof (analyseAll_hashes STRINGS (candidates (entries root)) shared0)
    as H4.
  simpl in H1, H2, H3, H4. rewrite H1, H2, H3, H4. split; reflexivity.
Qed.

(** ** The output of a run without a signal *)






(** ** A run cut by a signal *)

Lemma candidates_app l1 l2 :
  candidates (l1 ++ l2) = candidates l1 ++ candidates l2.
Proof. unfold candidates. now rewrite List.filter_app, map_app. Qed.

Lemma regions_app c ps1 ps2 :
  regions c (ps1 ++ ps2) = regions c ps1 ++ regions c ps2.
Proof. unfold regions. now rewrite map_app, concat_app. Qed.

Lemma candidates_snoc pre e :
  candidates (pre ++ [e])
  = candidates pre ++ (if to_analyse e then [e_path e] else []).
Proof.
  rewrite candidates_app. f_equal. unfold candidates. simpl.
  now destruct (to_analyse e).
Qed.

Lemma regions_snoc c pre e :
  to_analyse e = true ->
  regions c (candidates (pre ++ [e]))
  = regions c (candidates pre) ++ region_of c (disk (e_path e)).
Proof.
  intros He. rewrite candidates_snoc, He, regions_app.
  unfold regions at 2. simpl. now rewrite app_nil_r.
Qed.

Lemma regions_snoc_skip c pre e :
  to_analyse e = false ->
  regions c (candidates (pre ++ [e])) = regions c (candidates pre).
Proof. intros He. now rewrite candidates_snoc, He, app_nil_r. Qed.

Lemma progress_step input jobs l s s' :
  control input jobs s ->
  (exists pre post, progress s pre post) ->
  step input jobs l s = Some s' ->
  exists pre post, progress s' pre post.
Proof.
  intros Hctl (pre & post & Hsplit & Hreg & Hw) Hst.
  pose proof (ctl_main _ _ _ Hctl) as Hm.
  pose proof (ctl_pool _ _ _ Hctl) as Hpool.
  unfold step in Hst. destruct (exited s); [discriminate|].
  destruct l as [| |i|i|].
  - (* main *)
    unfold main_step in Hst. destruct (main_pc s).
    + destruct Hm as [Hws _]. rewrite Hws in *.
      destruct (decide _); injection Hst as <-; exists pre, post;
        (split; [exact Hsplit|]); (split; [|simpl; rewrite ?Hws; exact Hw]);
        intros c; simpl; rewrite ?Hws; specialize (Hreg c);
        destruct c; exact Hreg.
    + destruct (decide _); [|discriminate]. injection Hst as <-.
      exists pre, post. split; [exact Hsplit|]. split; [exact Hreg|exact Hw].
  - (* analyseFolder *)
    unfold walker_step in Hst.
    destruct (walker s) as [| | |[|e rest]|path rest|a rest|[|]| | | | |]
      eqn:Hwalker; try discriminate.
    + destruct (Walk count_fn root (totalWork s)) as [n [err|]];
        injection Hst as <-; exists pre, post;
        (split; [exact Hsplit|]); (split; [|exact Hw]);
        intros c; specialize (Hreg c); destruct c; exact Hreg.
    + destruct (jobs >? 1); injection Hst as <-.
      * exists [], (entries root). split; [reflexivity|]. split; [|reflexivity].
        intros c. simpl. rewrite workers_region_replicate.
        specialize (Hreg c). rewrite Hpool, Hw in Hreg. exact Hreg.
      * exists [], (entries root). split; [reflexivity|]. split; [|reflexivity].
        intros c. specialize (Hreg c). rewrite Hw in Hreg. exact Hreg.
    + injection Hst as <-. exists pre, post.
      split; [exact Hsplit|]. split; [exact Hreg|exact Hw].
    + injection Hst as <-. unfold dispatch_fn. simpl in Hreg.
      subst post.
      assert (entries root = (pre ++ [e]) ++ rest) as Hsplit'.
      { rewrite Hsplit, <- app_assoc. reflexivity. }
      destruct (e_err e) eqn:He.
      { exists (pre ++ [e]), rest. split; [exact Hsplit'|].
        split; [|reflexivity]. intros c. simpl.
        rewrite regions_snoc_skip; [apply Hreg|].
        unfold to_analyse. now rewrite He. }
      destruct (interrupted s).
      { exists pre, (e :: rest). split; [exact Hsplit|].
        split; [exact Hreg|exact I]. }
      destruct (candidate e) eqn:Hc.
      * assert (to_analyse e = true) as Hta.
        { unfold to_analyse. now rewrite He, Hc. }
        destruct (jobs >? 1).
        -- exists pre, (e :: rest). split; [exact Hsplit|].
           split; [exact Hreg|]. exists e. auto.
        -- exists (pre ++ [e]), rest. split; [exact Hsplit'|].
           split; [|reflexivity]. intros c. simpl.
           rewrite (regions_snoc c pre e Hta), <- (Hreg c). solve_Permutation.
      * exists (pre ++ [e]), rest. split; [exact Hsplit'|].
        split; [|reflexivity]. intros c. simpl.
        rewrite regions_snoc_skip; [apply Hreg|].
        unfold to_analyse. now rewrite He, Hc.
    + destruct (tasks_closed s); [|discriminate]. injection Hst as <-.
      exists pre, post. split; [exact Hsplit|]. simpl. rewrite Hwalker.
      split; [exact Hreg|exact Hw].
    + destruct (analyse_step a (sh s)) as [x' [a'|]] eqn:Ha;
        injection Hst as <-; exists pre, post;
        (split; [exact Hsplit|]); (split; [|exact Hw]);
        intros c; simpl in *;
        destruct (analyse_step_reads c _ _ _ _ Ha) as (delta & Hr & Hn);
        rewrite Hr; specialize (Hreg c); rewrite Hn in Hreg; simpl in Hreg;
        rewrite <- Hreg; solve_Permutation.
    + injection Hst as <-. exists pre, post. unfold close_tasks.
      destruct (tasks_closed s); (split; [exact Hsplit|]);
        (split; [exact Hreg|exact I]).
    + destruct (jobs >? 1); injection Hst as <-; exists pre, post;
        unfold close_tasks; try destruct (tasks_closed s);
        (split; [exact Hsplit|]); (split; [exact Hreg|exact Hw]).
    + destruct (decide _); [|discriminate]. injection Hst as <-.
      exists pre, post. split; [exact Hsplit|]. split; [exact Hreg|exact Hw].
    + injection Hst as <-. exists pre, post. split; [exact Hsplit|].
      split; [|exact Hw]. intros c. specialize (Hreg c). destruct c; exact Hreg.
    + injection Hst as <-. exists pre, post. unfold mainGroup_Done.
      destruct (mainGroup s - 1 <? 0); (split; [exact Hsplit|]);
        (split; [exact Hreg|exact Hw]).
  - (* the channel *)
    unfold send_step in Hst.
    destruct (walker s) eqn:Hwalker; try discriminate.
    destruct (workers s !! i) as [[| |]|] eqn:Hi; try discriminate.
    destruct (tasks_closed s); [discriminate|]. injection Hst as <-.
    destruct Hw as (e & -> & Hta & ->).
    exists (pre ++ [e]), rest. split.
    { rewrite Hsplit, <- app_assoc. reflexivity. }
    split; [|reflexivity]. intros c. simpl.
    destruct (workers_region_insert c _ _ _ Hi) as (others & H1 & H2).
    specialize (Hreg c). rewrite H1 in Hreg. simpl in Hreg.
    rewrite H2, (regions_snoc c pre e Hta), <- Hreg. simpl.
    solve_Permutation.
  - (* a worker *)
    unfold worker_step in Hst.
    destruct (workers s !! i) as [[|a|]|] eqn:Hi; try discriminate.
    + destruct (tasks_closed s); [|discriminate]. injection Hst as <-.
      exists pre, post. unfold jobGroup_Done. simpl.
      destruct (jobGroup s - 1 <? 0); (split; [exact Hsplit|]);
        (split; [|exact Hw]); intros c; simpl;
        destruct (workers_region_insert c _ _ _ Hi) as (others & H1 & H2);
        specialize (Hreg c); rewrite H1 in Hreg; rewrite H2; exact Hreg.
    + destruct (analyse_step a (sh s)) as [x' [a'|]] eqn:Ha;
        injection Hst as <-; exists pre, post;
        (split; [exact Hsplit|]); (split; [|exact Hw]);
        intros c; simpl;
        destruct (workers_region_insert c _ _ _ Hi) as (others & H1 & H2);
        destruct (analyse_step_reads c _ _ _ _ Ha) as (delta & Hr & Hn);
        specialize (Hreg c); rewrite H1 in Hreg; simpl in Hreg;
        rewrite Hn in Hreg; rewrite Hr, H2; simpl;
        rewrite <- Hreg; solve_Permutation.
  - (* the handler *)
    unfold handler_step in Hst.
    destruct (handler s);
      try (injection Hst as <-; exists pre, post;
           (split; [exact Hsplit|]); (split; [|exact Hw]);
           intros c; specialize (Hreg c); destruct c; exact Hreg).
    destruct (decide _); [|discriminate]. injection Hst as <-.
    exists pre, post. split; [exact Hsplit|]. split; [exact Hreg|exact Hw].
Qed.

Lemma progress_init : progress init [] (entries root).
Proof.
  split; [reflexivity|]. split; [|reflexivity].
  intros c. destruct c; reflexivity.
Qed.

Lemma reachable_progress input jobs s :
  reachable input jobs s -> exists pre post, progress s pre post.
Proof.
  intros [ls Hrun].
  assert (control input jobs s /\ exists pre post, progress s pre post)
    as [_ H]; [|exact H].
  apply (run_invariant
           (fun s => control input jobs s /\
                     exists pre post, progress s pre post) input jobs)
    with (ls := ls) (s := init); [| |exact Hrun].
  - intros l s1 s2 [Hc Hp] Hst. split.
    + eapply control_step; eauto.
    + eapply progress_step; eauto.
  - split; [apply control_init|]. exists [], (entries root).
    apply progress_init.
Qed.

Lemma occurrences_app d l1 l2 :
  occurrences d (l1 ++ l2) = (occurrences d l1 + occurrences d l2)%nat.
Proof. unfold occurrences. now rewrite List.filter_app, length_app. Qed.

Lemma occurrences_perm d l1 l2 :
  l1 ≡ₚ l2 -> occurrences d l1 = occurrences d l2.
Proof.
  induction 1 as [|x l l' _ IH|x y l|l l' l'' _ IH1 _ IH2].
  - reflexivity.
  - rewrite !occurrences_cons, IH. reflexivity.
  - rewrite !occurrences_cons.
    destruct (String.eqb d x), (String.eqb d y); reflexivity.
  - congruence.
Qed.

Lemma workers_region_idle c (ws : list WorkerPc) :
  Forall (fun w => running w = false) ws -> workers_region c ws = [].
Proof.
  unfold workers_region.
  induction 1 as [|w ws Hw _ IH]; simpl; [reflexivity|].
  rewrite IH. destruct w; try discriminate; reflexivity.
Qed.

(** In every state of every run, cut by a signal or not, what was read
    is part of the regions of the samples of the tree, each region at most
    once: no digest is counted more often than samples have it. *)
Theorem never_counts_twice input jobs s c :
  reachable input jobs s ->
  (exists rest,
     regions c (candidates (entries root)) ≡ₚ reads c (sh s) ++ rest) /\
  (forall d,
     occurrences d (map get_sha256 (reads c (sh s)))
     <= occurrences d
          (map get_sha256 (regions c (candidates (entries root)))))%nat.
Proof.
  intros Hr.
  destruct (reachable_progress _ _ _ Hr) as (pre & post & Hsplit & Hreg & _).
  assert (regions c (candidates (entries root))
          ≡ₚ reads c (sh s)
             ++ (walker_inflight c (walker s) ++ workers_region c (workers s)
                 ++ regions c (candidates post))) as Hp.
  { rewrite Hsplit, candidates_app, regions_app, <- (Hreg c).
    solve_Permutation. }
  split; [eauto|].
  intros d.
  rewrite (occurrences_perm d _ _ (Permutation_map get_sha256 Hp)).
  rewrite map_app, occurrences_app. lia.
Qed.

(** With a pool, the maps the signal handler prints count whole files
    only, and exactly the samples of the part of the tree that the dispatch
    pass had gone through: once the handler is past its
    [jobGroup.Wait()], what was read is the regions of these samples, and
    the maps are those of calling [analyseBinary] on them in turn. *)
Theorem interrupted_pool_report input jobs s :
  1 < jobs ->
  reachable input jobs s ->
  handler s = HShow \/ handler s = HExit ->
  exists pre post,
    entries root = pre ++ post /\
    forall c,
      reads c (sh s) ≡ₚ regions c (candidates pre) /\
      hashes c (sh s) = hashes c (analyseAll (candidates pre) shared0).
Proof.
  intros Hj Hr Hh.
  pose proof (reachable_control _ _ _ Hr) as Hctl.
  destruct (reachable_progress _ _ _ Hr) as (pre & post & Hsplit & Hreg & _).
  exists pre, post. split; [exact Hsplit|]. intros c.
  assert (reads c (sh s) ≡ₚ regions c (candidates pre)) as Hp.
  { rewrite <- (Hreg c).
    pose proof (ctl_handler _ _ _ Hctl) as Hidle.
    pose proof (ctl_mode _ _ _ Hctl) as Hmode.
    assert (Forall (fun w => running w = false) (workers s)) as Hws.
    { destruct Hh as [Hh|Hh]; rewrite Hh in Hidle; apply Hidle. }
    rewrite (workers_region_idle c _ Hws).
    assert (walker_inflight c (walker s) = []) as ->.
    { destruct (walker s); try reflexivity.
      apply Z.gtb_lt in Hj. congruence. }
    now rewrite !app_nil_r. }
  split; [exact Hp|].
  rewrite (reachable_tables_ok _ _ _ Hr c), analyseAll_hashes.
  replace (hashes c shared0) with (∅ : table) by (destruct c; reflexivity).
  apply (table_of_perm _ _ (Permutation_map get_sha256 Hp)).
Qed.

(** A tree without a sample leaves both maps empty in every state of
    every run. *)
Theorem no_sample_empty_maps input jobs s :
  candidates (entries root) = [] ->
  reachable input jobs s ->
  codeHashes (sh s) = ∅ /\ cstringHashes (sh s) = ∅.
Proof.
  intros Hnone Hr.
  destruct (reachable_progress _ _ _ Hr) as (pre & post & Hsplit & Hreg & _).
  assert (candidates pre = []) as Hpre.
  { rewrite Hsplit, candidates_app in Hnone.
    now destruct (candidates pre). }
  assert (forall c, reads c (sh s) = []) as Hreads.
  { intros c. specialize (Hreg c). rewrite Hpre in Hreg.
    apply Permutation_nil_r in Hreg.
    now destruct (reads c (sh s)). }
  pose proof (reachable_tables_ok _ _ _ Hr) as Ht.
  pose proof (Ht CODE) as H1. pose proof (Ht STRINGS) as H2.
  rewrite Hreads in H1, H2. simpl in H1, H2. auto.
Qed.

(** ** What is opened *)

Lemma in_candidates path l :
  In path (candidates l) <->
  exists e info,
    In e l /\ e_path e = path /\ e_err e = false /\ e_info e = Some info /\
    IsRegular info = true /\ Size info = fileSize.
Proof.
  unfold candidates. rewrite in_map_iff. split.
  - intros (e & Hp & He). apply filter_In in He as [Hin Hta].
    unfold to_analyse, candidate in Hta.
    destruct (e_err e) eqn:He; [discriminate|].
    destruct (e_info e) as [info|] eqn:Hi; [|discriminate].
    simpl in Hta. apply andb_prop in Hta as [Hreg Hsize].
    apply Z.eqb_eq in Hsize. exists e, info. repeat split; auto.
  - intros (e & info & Hin & Hp & He & Hi & Hreg & Hsize).
    exists e. split; [exact Hp|]. apply filter_In. split; [exact Hin|].
    unfold to_analyse, candidate. rewrite He, Hi, Hreg, Hsize.
    now rewrite Z.eqb_refl.
Qed.

Lemma analyse_step_opening (P : string -> Prop) a x x' oa :
  analyse_step a x = (x', oa) ->
  match a with AOpen path => P path | _ => True end ->
  (forall msg path, In (OutOpenError msg path) (stdout x) ->
     P path /\ disk path = OpenErr msg) ->
  match oa with Some (AOpen path) => P path | _ => True end /\
  (forall msg path, In (OutOpenError msg path) (stdout x') ->
     P path /\ disk path = OpenErr msg).
Proof.
  intros Ha HP Hout.
  destruct a as [path|mf|mf]; simpl in Ha.
  - destruct (disk path) as [msg'| |mf] eqn:Hd; injection Ha as <- <-;
      (split; [exact I|]); try exact Hout.
    intros msg p Hin. simpl in Hin. apply in_app_iff in Hin as [Hin|Hin];
      [now apply Hout|].
    destruct Hin as [[= <- <-]|[]]. auto.
  - destruct (sect_text mf) as [[b|]|]; injection Ha as <- <-;
      (split; [exact I|exact Hout]).
  - destruct (sect_cstring mf) as [[b|]|]; injection Ha as <- <-;
      (split; [exact I|exact Hout]).
Qed.

Lemma opening_step input jobs l s s' :
  control input jobs s ->
  (exists pre post, progress s pre post) ->
  opening (fun path => In path (candidates (entries root))) s ->
  step input jobs l s = Some s' ->
  opening (fun path => In path (candidates (entries root))) s'.
Proof.
  intros Hctl (pre & post & Hsplit & _ & Hpost) (Hw & Hws & Hout) Hst.
  pose proof (Walk_count_nil root (totalWork s)) as Hnil.
  assert (forall o, o <> OutWalkError -> is_open_error o = false ->
            forall msg path,
              In (OutOpenError msg path) (stdout (sh s) ++ [o]) ->
              In path (candidates (entries root)) /\ disk path = OpenErr msg)
    as Hprint.
  { intros o _ Ho msg path Hin.
    apply in_app_iff in Hin as [Hin|[Heq|[]]]; [now apply Hout|].
    subst o. discriminate Ho. }
  step_cases Hst s; unfold opening;
    unfold jobGroup_Done, close_tasks, mainGroup_Done in *;
    repeat match goal with
    | |- context [if ?b then _ else _] => destruct b
    end;
    simpl in *; rewrite ?Hwalker;
    try (split; [exact I|split; [assumption|]]; solve [auto]);
    try (split; [assumption|split; [assumption|]]; solve [auto]);
    try (split; [first [exact I|assumption]
                |split; [assumption|apply Hprint; [discriminate|reflexivity]]]);
    try (rewrite Hcount in Hnil; discriminate Hnil).
  - split; [exact I|]. split; [|exact Hout].
    apply Forall_replicate_KRecv. exact I.
  - (* the walk function of the dispatch pass *)
    split; [|split; [exact Hws|exact Hout]].
    unfold dispatch_fn.
    destruct (e_err e) eqn:He; [exact I|].
    destruct (interrupted s); [exact I|].
    destruct (candidate e) eqn:Hc; [|exact I].
    assert (In (e_path e) (candidates (entries root))) as Hin.
    { rewrite Hsplit, Hpost, candidates_app, candidates_cons.
      unfold to_analyse. rewrite He, Hc. simpl.
      apply in_or_app. right. left. reflexivity. }
    destruct (jobs >? 1); exact Hin.
  - destruct (analyse_step_opening _ _ _ _ _ Hanalyse Hw Hout) as [H1 H2].
    auto.
  - destruct (analyse_step_opening _ _ _ _ _ Hanalyse Hw Hout) as [H1 H2].
    auto.
  - split; [exact I|]. split; [|exact Hout].
    apply Forall_insert; assumption.
  - split; [exact Hw|]. split; [|exact Hout].
    apply Forall_insert; [assumption|exact I].
  - split; [exact Hw|]. split; [|exact Hout].
    apply Forall_insert; [assumption|exact I].
  - pose proof (Forall_lookup_1 _ _ _ _ Hws Hworker) as Ha. simpl in Ha.
    destruct (analyse_step_opening _ _ _ _ _ Hanalyse Ha Hout) as [H1 H2].
    split; [exact Hw|]. split; [|exact H2].
    apply Forall_insert; assumption.
  - pose proof (Forall_lookup_1 _ _ _ _ Hws Hworker) as Ha. simpl in Ha.
    destruct (analyse_step_opening _ _ _ _ _ Hanalyse Ha Hout) as [H1 H2].
    split; [exact Hw|]. split; [|exact H2].
    apply Forall_insert; [assumption|exact I].
Qed.

Lemma reachable_opening input jobs s :
  reachable input jobs s ->
  opening (fun path => In path (candidates (entries root))) s.
Proof.
  intros [ls Hrun].
  assert (control input jobs s /\
          (exists pre post, progress s pre post) /\
          opening (fun path => In path (candidates (entries root))) s)
    as (_ & _ & H); [|exact H].
  apply (run_invariant
           (fun s => control input jobs s /\
              (exists pre post, progress s pre post) /\
              opening (fun path => In path (candidates (entries root))) s)
           input jobs) with (ls := ls) (s := init); [| |exact Hrun].
  - intros l s1 s2 (Hc & Hp & Ho) Hst. split; [|split].
    + eapply control_step; eauto.
    + eapply progress_step; eauto.
    + eapply opening_step; eauto.
  - split; [apply control_init|]. split.
    + exists [], (entries root). apply progress_init.
    + split; [exact I|]. split; [constructor|]. intros msg path [].
Qed.

(** The program opens nothing but the samples: a path that is being sent
    to a worker, or that [analyseBinary] is about to open, is the path of an
    entry of the tree met without error, a regular file of 172792 bytes;
    and a line printed for a file that could not be opened names such a
    path, with the error that opening it gives. *)
Theorem only_samples_opened input jobs s :
  reachable input jobs s ->
  let sample path :=
    exists e info,
      In e (entries root) /\ e_path e = path /\ e_err e = false /\
      e_info e = Some info /\ IsRegular info = true /\ Size info = 172792 in
  (forall path rest,
     walker s = WSend path rest \/ walker s = WInline (AOpen path) rest ->
     sample path) /\
  (forall i path, workers s !! i = Some (KRun (AOpen path)) -> sample path) /\
  (forall msg path,
     In (OutOpenError msg path) (stdout (sh s)) ->
     sample path /\ disk path = OpenErr msg).
Proof.
  intros Hr sample.
  destruct (reachable_opening _ _ _ Hr) as (Hw & Hws & Hout).
  split; [|split].
  - intros path rest [H|H]; rewrite H in Hw; now apply in_candidates.
  - intros i path Hi.
    pose proof (Forall_lookup_1 _ _ _ _ Hws Hi) as H. simpl in H.
    now apply in_candidates.
  - intros msg path Hin. destruct (Hout msg path Hin) as [H1 H2].
    split; [now apply in_candidates|exact H2].
Qed.

(** ** No goroutine waits for ever *)

Lemma stop_flag_step input jobs l s s' :
  (stopped s = true -> interrupted s = true) ->
  step input jobs l s = Some s' ->
  stopped s' = true -> interrupted s' = true.
Proof.
  intros H Hst. unfold stopped in *.
  step_cases Hst s;
    unfold jobGroup_Done, close_tasks, mainGroup_Done, dispatch_fn in *;
    repeat match goal with
    | |- context [if ?b then _ else _] => destruct b eqn:?
    end;
    simpl in *; rewrite ?Hwalker; auto; try discriminate.
Qed.

Lemma reachable_stop_flag input jobs s :
  reachable input jobs s -> stopped s = true -> interrupted s = true.
Proof.
  intros [ls Hrun].
  apply (run_invariant (fun s => stopped s = true -> interrupted s = true)
           input jobs (stop_flag_step input jobs) ls init s); [|exact Hrun].
  discriminate.
Qed.

Lemma live_worker_exists (ws : list WorkerPc) :
  length (List.filter live ws) <> 0%nat ->
  exists i w, ws !! i = Some w /\ live w = true.
Proof.
  induction ws as [|w ws IH]; simpl; [congruence|].
  destruct (live w) eqn:Hl.
  - intros _. exists 0%nat, w. auto.
  - intros H. destruct (IH H) as (i & w' & Hi & Hw').
    exists (Datatypes.S i), w'. auto.
Qed.

(** A worker that has not returned can take a step once [tasks] is
    closed. *)
Lemma live_worker_steps input jobs s i w :
  exited s = None -> tasks_closed s = true ->
  workers s !! i = Some w -> live w = true ->
  exists s', step input jobs (LWorker i) s = Some s'.
Proof.
  intros Hex Hc Hi Hl. unfold step, worker_step. rewrite Hex, Hi.
  destruct w as [|a|]; [| |discriminate].
  - rewrite Hc. eauto.
  - destruct (analyse_step a (sh s)) as [x [a'|]]; eauto.
Qed.

(** Until the process has ended, some goroutine can take a step, and
    without waiting for a signal that has not come: [analyseFolder] blocked
    in a send finds a worker receiving or busy, whoever waits on [jobGroup]
    finds a worker that can go on, and when [analyseFolder] has returned
    without [mainGroup.Done()] the handler is on its way to
    [os.Exit(0)]. *)
Lemma step_enabled input jobs s :
  reachable input jobs s -> exited s = None ->
  exists l s',
    step input jobs l s = Some s' /\
    (l = LHandler -> handler s <> HIdle).
Proof.
  intros Hr Hex.
  pose proof (reachable_control _ _ _ Hr) as Hctl.
  pose proof (ctl_main _ _ _ Hctl) as Hm.
  pose proof (ctl_jobGroup _ _ _ Hctl) as HjG.
  pose proof (ctl_closed _ _ _ Hctl) as Hcl.
  pose proof (ctl_mode _ _ _ Hctl) as Hmode.
  pose proof (ctl_pool _ _ _ Hctl) as Hpool.
  pose proof (ctl_open _ _ _ Hctl) as Hopen.
  pose proof (ctl_flag _ _ _ Hctl) as Hflag.
  pose proof (reachable_stop_flag _ _ _ Hr) as Hstop.
  assert (jobGroup s <> 0 -> tasks_closed s = true ->
          exists l s', step input jobs l s = Some s' /\
                       (l = LHandler -> handler s <> HIdle)) as Hdrain.
  { intros Hne Hc.
    destruct (live_worker_exists (workers s)) as (i & w & Hi & Hl); [lia|].
    destruct (live_worker_steps input jobs s i w Hex Hc Hi Hl) as (s' & Hs).
    exists (LWorker i), s'. split; [exact Hs|discriminate]. }
  destruct (main_pc s) eqn:Hpc.
  { exists LMain. unfold step, main_step. rewrite Hex, Hpc.
    destruct (decide (input = EmptyString)); eexists;
      (split; [reflexivity|discriminate]). }
  destruct Hm as (Hne & Hin & Hmg).
  destruct (walker s) as [| | |[|e rest]|path rest|a rest|[|]| | | | |]
    eqn:Hw; simpl in *.
  - contradiction.
  - exists LWalker. unfold step, walker_step. rewrite Hex, Hw.
    destruct (Walk count_fn root (totalWork s)) as [n err].
    eexists; (split; [reflexivity|discriminate]).
  - exists LWalker. unfold step, walker_step. rewrite Hex, Hw.
    destruct (jobs >? 1); eexists; (split; [reflexivity|discriminate]).
  - exists LWalker. unfold step, walker_step. rewrite Hex, Hw.
    eexists; (split; [reflexivity|discriminate]).
  - exists LWalker. unfold step, walker_step. rewrite Hex, Hw.
    eexists; (split; [reflexivity|discriminate]).
  - (* blocked in the send *)
    rewrite Hmode in Hpool. apply Z.gtb_lt in Hmode.
    destruct (workers s) as [|w ws] eqn:Hws; [simpl in Hpool; lia|].
    specialize (Hopen Hcl). apply Forall_cons in Hopen as [Hl _].
    destruct w as [|a|]; [| |discriminate].
    + exists (LSend 0). unfold step, send_step.
      rewrite Hex, Hw, Hws, Hcl. simpl. eexists.
      split; [reflexivity|discriminate].
    + exists (LWorker 0). unfold step, worker_step.
      rewrite Hex, Hws. simpl.
      destruct (analyse_step a (sh s)) as [x [a'|]]; eexists;
        (split; [reflexivity|discriminate]).
  - exists LWalker. unfold step, walker_step. rewrite Hex, Hw.
    destruct (analyse_step a (sh s)) as [x [a'|]];
      eexists; (split; [reflexivity|discriminate]).
  - exists LWalker. unfold step, walker_step. rewrite Hex, Hw.
    eexists; (split; [reflexivity|discriminate]).
  - exists LWalker. unfold step, walker_step. rewrite Hex, Hw.
    destruct (jobs >? 1); eexists; (split; [reflexivity|discriminate]).
  - (* returned after the flag: the handler goes on *)
    assert (interrupted s = true) as Hi.
    { apply Hstop. unfold stopped. now rewrite Hw. }
    rewrite Hi in Hflag.
    destruct (handler s) eqn:Hh; try discriminate.
    + destruct (decide (jobGroup s = 0)) as [Hz|Hz]; [|now apply Hdrain].
      exists LHandler. unfold step, handler_step. rewrite Hex, Hh.
      destruct (decide (jobGroup s = 0)); [|contradiction].
      eexists. split; [reflexivity|discriminate].
    + exists LHandler. unfold step, handler_step. rewrite Hex, Hh.
      eexists. split; [reflexivity|discriminate].
    + exists LHandler. unfold step, handler_step. rewrite Hex, Hh.
      eexists. split; [reflexivity|discriminate].
  - (* waiting for the workers *)
    destruct (decide (jobGroup s = 0)) as [Hz|Hz]; [|now apply Hdrain].
    exists LWalker. unfold step, walker_step. rewrite Hex, Hw.
    destruct (decide (jobGroup s = 0)); [|contradiction].
    eexists; (split; [reflexivity|discriminate]).
  - exists LWalker. unfold step, walker_step. rewrite Hex, Hw.
    eexists; (split; [reflexivity|discriminate]).
  - exists LWalker. unfold step, walker_step. rewrite Hex, Hw.
    eexists; (split; [reflexivity|discriminate]).
  - exists LMain. unfold step, main_step. rewrite Hex, Hpc.
    destruct (decide (mainGroup s = 0)); [|contradiction].
    eexists. split; [reflexivity|discriminate].
Qed.

(** ** Every run ends *)

Lemma workers_left_insert (ws : list WorkerPc) i w w' :
  ws !! i = Some w ->
  (workers_left (<[i:=w']> ws) + worker_left w
   = workers_left ws + worker_left w')%nat.
Proof.
  unfold workers_left.
  revert i. induction ws as [|x ws IH]; intros [|i] Hi; simpl in *;
    try discriminate.
  - injection Hi as ->. lia.
  - specialize (IH i Hi). lia.
Qed.

Lemma workers_left_replicate n :
  workers_left (replicate n KRecv) = n.
Proof.
  unfold workers_left. induction n as [|n IH]; simpl; [reflexivity|].
  now rewrite IH.
Qed.

Lemma analyse_step_left a x x' a' :
  analyse_step a x = (x', Some a') -> (apc_left a' < apc_left a)%nat.
Proof.
  destruct a as [path|mf|mf]; simpl.
  - destruct (disk path); intros [= <- <-]; simpl; lia.
  - destruct (sect_text mf) as [[b|]|]; intros [= <- <-]; simpl; lia.
  - destruct (sect_cstring mf) as [[b|]|]; intros [= <- <-].
Qed.

(** Every step takes the process closer to its end. *)
Lemma steps_left_step input jobs l s s' :
  control input jobs s ->
  step input jobs l s = Some s' ->
  (steps_left jobs s' < steps_left jobs s)%nat.
Proof.
  intros Hctl Hst.
  pose proof (ctl_pool _ _ _ Hctl) as Hpool.
  pose proof (ctl_main _ _ _ Hctl) as Hm.
  unfold steps_left.
  step_cases Hst s;
    unfold jobGroup_Done, close_tasks, mainGroup_Done, dispatch_fn, panic,
      pool_size in *;
    simpl; rewrite ?Hexited; simpl;
    repeat (match goal with
            | |- context [if ?b then _ else _] => destruct b eqn:?
            end; simpl; rewrite ?Hexited; simpl);
    try match goal with
    | Hw : workers s !! _ = Some _ |- context [<[_:=?w']> (workers s)] =>
        pose proof (workers_left_insert _ _ _ w' Hw)
    end;
    try match goal with
    | Ha : analyse_step _ _ = (_, Some _) |- _ =>
        pose proof (analyse_step_left _ _ _ _ Ha)
    end;
    rewrite ?workers_left_replicate;
    simpl in *; try lia.
  all: try (destruct Hm as [Hw _]; rewrite Hw; simpl; lia).
  all: try (rewrite Hpool; unfold workers_left, pool_size; rewrite ?Hjobs;
            simpl; lia).
  all: destruct a; simpl in *; lia.
Qed.

Lemma run_steps_left input jobs ls :
  forall s s',
    control input jobs s -> run input jobs ls s = Some s' ->
    (length ls + steps_left jobs s' <= steps_left jobs s)%nat.
Proof.
  induction ls as [|l ls IH]; intros s s' Hctl Hrun; simpl in Hrun.
  - injection Hrun as <-. simpl. lia.
  - destruct (step input jobs l s) as [s1|] eqn:Hst; [|discriminate].
    pose proof (steps_left_step _ _ _ _ _ Hctl Hst) as Hlt.
    pose proof (control_step _ _ _ _ _ Hctl Hst) as Hctl1.
    specialize (IH s1 s' Hctl1 Hrun). simpl. lia.
Qed.

(** No run is longer than six steps for each entry of the tree, one for
    each worker of the pool, and fourteen: the program has no unbounded
    loop, whatever the signals and the interleaving. *)
Theorem runs_are_bounded input jobs ls s :
  run input jobs ls init = Some s ->
  (length ls <= 6 * length (entries root) + pool_size jobs + 14)%nat.
Proof.
  intros Hrun.
  pose proof (run_steps_left input jobs ls init s (control_init input jobs)
                Hrun) as H.
  assert (steps_left jobs init
          = (6 * length (entries root) + pool_size jobs + 14)%nat) as Hinit.
  { unfold steps_left, workers_left.
    cbn [init exited main_pc walker workers handler main_left walker_left
         handler_left map].
    change (list_sum []) with 0%nat. lia. }
  lia.
Qed.

Lemma reachable_step input jobs l s s' :
  reachable input jobs s -> step input jobs l s = Some s' ->
  reachable input jobs s'.
Proof.
  intros [ls Hrun] Hst. exists (ls ++ [l]).
  rewrite run_app, Hrun. simpl. now rewrite Hst.
Qed.

Lemma handler_kept input jobs l s s' :
  step input jobs l s = Some s' -> l <> LHandler -> handler s' = handler s.
Proof.
  intros Hst Hl.
  step_cases Hst s; try contradiction;
    unfold jobGroup_Done, close_tasks, mainGroup_Done in *;
    repeat match goal with
    | |- context [if ?b then _ else _] => destruct b
    end; reflexivity.
Qed.

Lemma can_finish input jobs n :
  forall s,
    (steps_left jobs s <= n)%nat -> reachable input jobs s ->
    exists ls s' code,
      run input jobs ls s = Some s' /\ exited s' = Some code /\
      (handler s = HIdle -> handler s' = HIdle).
Proof.
  induction n as [|n IH]; intros s Hn Hr.
  - exists [], s. unfold steps_left in Hn.
    destruct (exited s) as [code|]; [|lia]. exists code. auto.
  - destruct (exited s) as [code|] eqn:Hex.
    { exists [], s, code. auto. }
    destruct (step_enabled _ _ _ Hr Hex) as (l & s1 & Hst & Hl).
    pose proof (steps_left_step _ _ _ _ _ (reachable_control _ _ _ Hr) Hst)
      as Hlt.
    destruct (IH s1) as (ls & s' & code & Hrun & Hcode & Hh);
      [lia|eapply reachable_step; eauto|].
    exists (l :: ls), s', code. split; [|split; [exact Hcode|]].
    + simpl. now rewrite Hst.
    + intros Hidle. apply Hh.
      rewrite (handler_kept _ _ _ _ _ Hst); [exact Hidle|].
      intros ->. now apply Hl.
Qed.

(** From every state a run can reach, the process can go on to its end
    without any further signal: it never deadlocks (some goroutine can
    always take a step) and it never waits for a signal to finish. *)
Theorem always_terminates input jobs s :
  reachable input jobs s ->
  (exited s = None ->
   exists l s', step input jobs l s = Some s' /\
                (l = LHandler -> handler s <> HIdle)) /\
  exists ls s' code,
    run input jobs ls s = Some s' /\ exited s' = Some code /\
    (handler s = HIdle -> handler s' = HIdle).
Proof.
  intros Hr. split.
  - now apply step_enabled.
  - now apply (can_finish input jobs (steps_left jobs s)).
Qed.

(** ** What is never undone *)

Lemma kept_step input jobs l s s' :
  control input jobs s ->
  step input jobs l s = Some s' ->
  (interrupted s = true -> interrupted s' = true) /\
  (tasks_closed s = true -> tasks_closed s' = true) /\
  (forall j, workers s !! j = Some KDone -> workers s' !! j = Some KDone).
Proof.
  intros Hctl Hst.
  pose proof (ctl_pool _ _ _ Hctl) as Hpool.
  assert (forall i j w w',
            workers s !! i = Some w -> w <> KDone ->
            workers s !! j = Some KDone ->
            <[i:=w']> (workers s) !! j = Some KDone) as Hins.
  { intros i j w w' Hi Hw Hj.
    rewrite list_lookup_insert_ne; [exact Hj|]. congruence. }
  step_cases Hst s;
    unfold jobGroup_Done, close_tasks, mainGroup_Done in *;
    repeat match goal with
    | |- context [if ?b then _ else _] => destruct b eqn:?
    end;
    simpl in *; repeat split; auto; try congruence;
    try (intros j Hj; eapply Hins; eauto; discriminate).
  intros j Hj. rewrite Hpool in Hj. discriminate Hj.
Qed.

(** Nothing is undone in a run: once the handler has set the flag it stays
    set, once [tasks] is closed it stays closed, and a worker that has
    returned stays returned. *)
Theorem nothing_is_undone input jobs ls s s' :
  reachable input jobs s -> run input jobs ls s = Some s' ->
  (interrupted s = true -> interrupted s' = true) /\
  (tasks_closed s = true -> tasks_closed s' = true) /\
  (forall j, workers s !! j = Some KDone -> workers s' !! j = Some KDone).
Proof.
  intros Hr. pose proof (reachable_control _ _ _ Hr) as Hctl. clear Hr.
  revert s Hctl. induction ls as [|l ls IH]; intros s Hctl Hrun;
    simpl in Hrun.
  - injection Hrun as <-. auto.
  - destruct (step input jobs l s) as [s1|] eqn:Hst; [|discriminate].
    destruct (kept_step _ _ _ _ _ Hctl Hst) as (H1 & H2 & H3).
    destruct (IH s1 (control_step _ _ _ _ _ Hctl Hst) Hrun) as (H4 & H5 & H6).
    auto.
Qed.

End Program.

(** * The small corpus, run *)

Abbreviation sample_run root input jobs schedule :=
  (run sample_Sum sample_disk root input jobs schedule init).

Abbreviation sample_state root input jobs schedule :=
  (default init (sample_run root input jobs schedule)).

Ltac by_schedule sched := exists sched; vm_compute; reflexivity.


Lemma reachable_pool :
  reachable sample_Sum sample_disk sample_root "in" 2
    (sample_state sample_root "in" 2 pool_schedule).
Proof. by_schedule pool_schedule. Qed.


Lemma reachable_interrupt_at_b :
  reachable sample_Sum sample_disk sample_root "in" 2
    (sample_state sample_root "in" 2 interrupt_at_b).
Proof. by_schedule interrupt_at_b. Qed.

Lemma reachable_racing_send :
  reachable sample_Sum sample_disk single_root "in" 2
    (sample_state single_root "in" 2 racing_send).
Proof. by_schedule racing_send. Qed.


(** C3. The report can be printed twice, and the process can end in the
    middle of a file.  With [-n 2] on an empty tree, a signal that arrives
    after the last test of the flag lets [analyseFolder] finish the walk and
    print, while the handler, whose [jobGroup.Wait()] returns at once,
    prints too.  With [-n 1] nothing is counted in [jobGroup], so the
    handler prints and calls [os.Exit(0)] while [analyseFolder] is between
    the two sections of a sample, [__text] counted and [__cstring] not. *)
Theorem late_interrupt_reports_twice :
  (exists s,
     sample_run empty_root "in" 2 late_interrupt = Some s /\
     reports (stdout (sh s)) = 2%nat /\ exited s = Some 0) /\
  (exists s mf,
     sample_run single_root "in" 1 inline_interrupt = Some s /\
     exited s = Some 0 /\ walker s = WInline (ACstring mf) [] /\
     text_reads (sh s) = [[x01; xfe]] /\ cstring_reads (sh s) = [] /\
     stdout (sh s) = [OutCtrlC; OutResults (codeHashes (sh s)) ∅]).
Proof.
  split.
  - eexists. split; [vm_compute; reflexivity|]. split; reflexivity.
  - eexists. eexists. split; [vm_compute; reflexivity|].
    repeat split; reflexivity.
Qed.


(** C5, the claim as stated fails: a path is handed to a worker after the
    flag was set, when the signal arrives between the test of line 190 and
    the send of line 196. *)
Lemma dispatch_after_flag :
  ~ (forall s i,
       reachable sample_Sum sample_disk single_root "in" 2 s ->
       interrupted s = true -> send_step i s = None).
Proof.
  intros H.
  specialize (H _ 0%nat reachable_racing_send eq_refl).
  vm_compute in H. discriminate H.
Qed.


(** ** The theorems on the small corpus *)

Lemma not_macho_no_effect_witness :
  analyseBinary sample_Sum sample_disk "in/c" shared0 = shared0 /\
  analyse_step sample_Sum sample_disk (AOpen "in/c") shared0
  = (shared0, None) /\
  forall c,
    hashes c (analyseBinary sample_Sum sample_disk "in/c" shared0)
    = hashes c shared0.
Proof.
  apply (not_macho_no_effect sample_Sum sample_disk "in/c" shared0).
  reflexivity.
Defined.

Lemma sections_not_atomic_witness :
  analyseBinary sample_Sum sample_disk "in/f" shared0 = shared0 /\
  analyseBinary sample_Sum sample_disk "in/b" shared0
  = add_code [x01; xfe] "01fe" shared0.
Proof.
  split.
  - apply (proj1 (sections_not_atomic sample_Sum sample_disk "in/f"
                    {| sect_text := Some ReadErr;
                       sect_cstring := Some (ReadOk [x68; x6f]) |}
                    shared0 eq_refl)).
    reflexivity.
  - apply (proj2 (sections_not_atomic sample_Sum sample_disk "in/b"
                    {| sect_text := Some (ReadOk [x01; xfe]);
                       sect_cstring := Some ReadErr |}
                    shared0 eq_refl) [x01; xfe]); reflexivity.
Defined.

Lemma walk_errors_skipped_witness :
  count_fn {| e_path := "in/d"; e_info := None; e_err := true |} 3
  = (3, None) /\
  dispatch_fn 2 {| e_path := "in/d"; e_info := None; e_err := true |} [] init
  = WWalk [].
Proof.
  pose proof (walk_errors_skipped sample_Sum sample_disk sample_root 2
                {| e_path := "in/d"; e_info := None; e_err := true |}
                [] init 3 eq_refl) as H.
  split; [apply H|apply H].
Defined.


Lemma accounting_identity_witness :
  (forall n,
     codeHashes (sh (sample_state sample_root "in" 2 pool_schedule)) !! "01fe"
     = Some n -> n = 2) /\
  text_reads (sh (sample_state sample_root "in" 2 pool_schedule))
  ≡ₚ regions sample_disk CODE (candidates (entries sample_root)).
Proof.
  pose proof (accounting_identity sample_Sum sample_disk sample_root "in" 2
                (sample_state sample_root "in" 2 pool_schedule) CODE "01fe"
                reachable_pool) as H.
  cbv zeta in H. unfold hashes, reads in H.
  destruct H as (_ & Hcount & Hreads).
  split.
  - intros n Hn. rewrite (Hcount n Hn); vm_compute; reflexivity.
  - apply Hreads. vm_compute. reflexivity.
Defined.



Lemma cancellation_observed_witness :
  step sample_Sum sample_disk sample_root "in" 2 LWalker
    (sample_state sample_root "in" 2 interrupt_at_b)
  = Some (set_walker (WReturned true)
            (sample_state sample_root "in" 2 interrupt_at_b)).
Proof.
  destruct (cancellation_observed sample_Sum sample_disk sample_root "in" 2
              (sample_state sample_root "in" 2 interrupt_at_b)
              reachable_interrupt_at_b) as (Hobs & _).
  eapply Hobs; vm_compute; reflexivity.
Defined.


(** ** The further properties on the small corpus *)


Lemma reachable_interrupted_pool :
  reachable sample_Sum sample_disk sample_root "in" 2
    (sample_state sample_root "in" 2 interrupted_pool_schedule).
Proof. by_schedule interrupted_pool_schedule. Qed.

Lemma reachable_empty_tree :
  reachable sample_Sum sample_disk empty_root "in" 2
    (sample_state empty_root "in" 2 late_interrupt).
Proof. by_schedule late_interrupt. Qed.

Lemma totalWork_counts_samples_witness :
  totalWork (sample_state sample_root "in" 2 pool_schedule) = 4.
Proof.
  destruct (totalWork_counts_samples sample_Sum sample_disk sample_root
              "in" 2 (sample_state sample_root "in" 2 pool_schedule)
              reachable_pool) as (_ & H & _);
    [vm_compute; discriminate|vm_compute; discriminate|].
  rewrite H; vm_compute; reflexivity.
Defined.

Lemma analyse_order_irrelevant_witness :
  codeHashes (analyseAll sample_Sum sample_disk ["in/a"; "in/b"; "in/f"]
                shared0)
  = codeHashes (analyseAll sample_Sum sample_disk ["in/f"; "in/b"; "in/a"]
                  shared0).
Proof.
  apply (analyse_order_irrelevant sample_Sum sample_disk
           ["in/a"; "in/b"; "in/f"] ["in/f"; "in/b"; "in/a"] shared0).
  solve_Permutation.
Defined.

Lemma run_refines_sequential_witness :
  codeHashes (sh (sample_state sample_root "in" 2 pool_schedule))
  = codeHashes
      (analyseAll sample_Sum sample_disk (candidates (entries sample_root))
         shared0).
Proof.
  apply (run_refines_sequential sample_Sum sample_disk sample_root "in" 2
           (sample_state sample_root "in" 2 pool_schedule) reachable_pool).
  vm_compute. reflexivity.
Defined.


Lemma never_counts_twice_witness :
  exists rest,
    regions sample_disk CODE (candidates (entries sample_root))
    ≡ₚ reads CODE (sh (sample_state sample_root "in" 2
                         interrupted_pool_schedule)) ++ rest.
Proof.
  apply (never_counts_twice sample_Sum sample_disk sample_root "in" 2
           (sample_state sample_root "in" 2 interrupted_pool_schedule) CODE
           reachable_interrupted_pool).
Defined.

Lemma interrupted_pool_report_witness :
  exists pre post,
    entries sample_root = pre ++ post /\
    forall c,
      reads c (sh (sample_state sample_root "in" 2
                     interrupted_pool_schedule))
      ≡ₚ regions sample_disk c (candidates pre) /\
      hashes c (sh (sample_state sample_root "in" 2
                      interrupted_pool_schedule))
      = hashes c (analyseAll sample_Sum sample_disk (candidates pre) shared0).
Proof.
  apply (interrupted_pool_report sample_Sum sample_disk sample_root "in" 2
           (sample_state sample_root "in" 2 interrupted_pool_schedule)).
  - lia.
  - exact reachable_interrupted_pool.
  - left. vm_compute. reflexivity.
Defined.

Lemma no_sample_empty_maps_witness :
  codeHashes (sh (sample_state empty_root "in" 2 late_interrupt)) = ∅ /\
  cstringHashes (sh (sample_state empty_root "in" 2 late_interrupt)) = ∅.
Proof.
  apply (no_sample_empty_maps sample_Sum sample_disk empty_root "in" 2
           (sample_state empty_root "in" 2 late_interrupt)).
  - reflexivity.
  - exact reachable_empty_tree.
Defined.

Lemma only_samples_opened_witness :
  exists e info,
    In e (entries single_root) /\ e_path e = "in/a"%string /\
    e_err e = false /\ e_info e = Some info /\
    IsRegular info = true /\ Size info = 172792.
Proof.
  assert (reachable sample_Sum sample_disk single_root "in" 2
            (sample_state single_root "in" 2 (racing_send ++ [LSend 0])))
    as Hr by (exists (racing_send ++ [LSend 0]); vm_compute; reflexivity).
  destruct (only_samples_opened sample_Sum sample_disk single_root "in" 2
              (sample_state single_root "in" 2 (racing_send ++ [LSend 0]))
              Hr) as (_ & Hworkers & _).
  apply (Hworkers 0%nat "in/a"%string). vm_compute. reflexivity.
Defined.

Lemma runs_are_bounded_witness :
  (length pool_schedule
   <= 6 * length (entries sample_root) + pool_size 2 + 14)%nat.
Proof.
  apply (runs_are_bounded sample_Sum sample_disk sample_root "in" 2
           pool_schedule (sample_state sample_root "in" 2 pool_schedule)).
  vm_compute. reflexivity.
Defined.

Lemma always_terminates_witness :
  exists ls s' code,
    run sample_Sum sample_disk sample_root "in" 2 ls
      (sample_state sample_root "in" 2 interrupt_at_b) = Some s' /\
    exited s' = Some code /\
    (handler (sample_state sample_root "in" 2 interrupt_at_b) = HIdle ->
     handler s' = HIdle).
Proof.
  apply (always_terminates sample_Sum sample_disk sample_root "in" 2
           (sample_state sample_root "in" 2 interrupt_at_b)
           reachable_interrupt_at_b).
Defined.

Lemma nothing_is_undone_witness :
  interrupted (sample_state sample_root "in" 2 interrupted_pool_schedule)
  = true.
Proof.
  assert (run sample_Sum sample_disk sample_root "in" 2
            [LWalker; LWalker; LWorker 1; LWorker 1; LWorker 0; LWorker 1;
             LHandler]
            (sample_state sample_root "in" 2 interrupt_at_b)
          = Some (sample_state sample_root "in" 2 interrupted_pool_schedule))
    as Hrun by (vm_compute; reflexivity).
  destruct (nothing_is_undone sample_Sum sample_disk sample_root "in" 2 _ _ _
              reachable_interrupt_at_b Hrun) as (H & _ & _).
  apply H. vm_compute. reflexivity.
Defined.
